(** * B_retriever: hybrid retrieval pipeline

    A shallow embedding of [src/B_retriever.py]: document loading, token
    bounded chunking, the cached batch-embedding loop, index construction
    and the assembly of the ensemble retriever, followed by the properties
    established about them.

    Conventions.
    - A Python [str] is a [string]; one list element stands for one
      character, so slicing and [len] agree with Python on ASCII text.
    - Python dictionaries used as maps are [gmap]s; the dictionary
      [unique_pairs], whose key order matters, is an association list.
    - Third-party code (tiktoken, nltk, hashlib, the embedding provider)
      is taken as a parameter, gathered in the record [Externals].
    - Files, environment and provider traffic live in an explicit [World]
      that every effectful function threads through. *)

From Stdlib Require Import ZArith QArith Lia Ascii String List.
From stdpp Require Import gmap strings list sorting.
Import ListNotations.

Local Open Scope string_scope.
Local Open Scope list_scope.

(** ** Python string helpers *)

(** [sep.join(parts)] *)
Definition str_join (sep : string) (parts : list string) : string :=
  String.concat sep parts.

(** [s[-n:]] for [n > 0]: the last [n] characters, all of [s] when it is
    shorter. *)
Definition str_suffix (n : Z) (s : string) : string :=
  let len := String.length s in
  let k := Z.to_nat n in
  String.substring (len - k) k s.

(** [c.isspace()] on the ASCII range *)
Definition isspace (c : ascii) : bool :=
  let n := nat_of_ascii c in
  (Nat.leb 9 n && Nat.leb n 13) || (Nat.leb 28 n && Nat.leb n 32).

Fixpoint lstrip (s : string) : string :=
  match s with
  | String c s' => if isspace c then lstrip s' else s
  | EmptyString => EmptyString
  end.

(** [rstrip] keeps a character when it is not a space or when something
    non-blank follows it. *)
Fixpoint rstrip (s : string) : string :=
  match s with
  | String c s' =>
      match rstrip s' with
      | EmptyString => if isspace c then EmptyString else String c EmptyString
      | r => String c r
      end
  | EmptyString => EmptyString
  end.

(** [s.strip()] *)
Definition strip (s : string) : string := rstrip (lstrip s).

(** [s.endswith(suffix)] *)
Definition endswith (s suffix : string) : bool :=
  let n := String.length s in
  let k := String.length suffix in
  Nat.leb k n && String.eqb (String.substring (n - k) k s) suffix.

(** Truth value of a Python string: non-empty. *)
Definition truthy (s : string) : bool :=
  match s with EmptyString => false | _ => true end.

(** ** Data model *)

(** [langchain_core.documents.Document] *)
Record Document := mkDocument {
  page_content : string;
  metadata : gmap string string
}.

(** A tiktoken encoding: [enc.encode] and [enc.decode]. *)
Record Encoding := mkEncoding {
  encode : string -> list nat;
  decode : list nat -> string
}.

(** [len(enc.encode(s))] *)
Definition token_len (enc : Encoding) (s : string) : Z :=
  Z.of_nat (length (encode enc s)).

(** An embedding vector (a list of floats in the source; no property below
    computes with the coordinates). *)
Definition vector : Type := list Q.

(** Code outside the repository that the pipeline calls. *)
Record Externals := mkExternals {
  (** [nltk.sent_tokenize] *)
  sent_tokenize : string -> list string;
  (** [tiktoken.encoding_for_model] *)
  encoding_for_model : string -> Encoding;
  (** [hashlib.md5(text.encode("utf-8")).hexdigest()] *)
  md5_hexdigest : string -> string;
  (** [embedding.embed_documents(texts)], given the number of provider
      calls made before this one; [None] when the call raises. *)
  embed_documents : nat -> list string -> option (list vector)
}.

(** ** semantic_token_chunk_documents *)

Module Chunker.
Section Chunker.
Variable ext : Externals.
Variables max_tokens overlap_tokens : Z.
Variable model_name : string.

Let enc : Encoding := encoding_for_model ext model_name.

(** State of the sentence loop of one document: the chunks emitted so
    far for it, [buffer] and [buffer_token_count]. *)
Record LoopState := mkLoop {
  emitted : list Document;
  buffer : list string;
  buffer_token_count : Z
}.

(** One iteration of [for sentence in sentences] (lines 79-95). *)
Definition sentence_step (md : gmap string string) (st : LoopState)
    (sentence : string) : LoopState :=
  let sentence_len := token_len enc sentence in
  if (buffer_token_count st + sentence_len <=? max_tokens)%Z then
    mkLoop (emitted st) (buffer st ++ [sentence])
           (buffer_token_count st + sentence_len)
  else
    let out := emitted st ++ [mkDocument (str_join " " (buffer st)) md] in
    if (0 <? overlap_tokens)%Z then
      let overlap_text := str_suffix overlap_tokens (str_join " " (buffer st)) in
      let overlap_tokens_list := encode enc overlap_text in
      let buffer' := [decode enc overlap_tokens_list] ++ [sentence] in
      mkLoop out buffer' (token_len enc (str_join " " buffer'))
    else
      mkLoop out [sentence] sentence_len.

(** The body of [for doc in documents] (lines 73-98): the chunks one
    document appends to [chunked_docs]. A langchain Document has no
    attribute [text], so line 73 reads [page_content]. *)
Definition chunk_document (doc : Document) : list Document :=
  let text := page_content doc in
  let md := metadata doc in
  let sentences := sent_tokenize ext text in
  let st := fold_left (sentence_step md) sentences (mkLoop [] [] 0%Z) in
  match buffer st with
  | [] => emitted st
  | _ => emitted st ++ [mkDocument (str_join " " (buffer st)) md]
  end.

Definition semantic_token_chunk_documents (documents : list Document)
    : list Document :=
  fold_left (fun chunked_docs doc => chunked_docs ++ chunk_document doc)
            documents [].

End Chunker.
End Chunker.

(** ** The world the pipeline runs in *)

(** Exceptions the pipeline can end with. *)
Inductive exn :=
| ValueError (msg : string)
| RuntimeError (msg : string)
| IndexError
| ReadError        (** [os.listdir], [open] or [json.load] raising *)
| ProviderError.   (** whatever [embed_documents] raises *)

Inductive result (A : Type) :=
| Ok (a : A)
| Raise (e : exn).
Arguments Ok {A} a.
Arguments Raise {A} e.

(** A record file after [json.load]: the [csv_metadata] object and the
    [pdf_data] list of page objects, either of which may be absent. *)
Record RecordFile := mkRecordFile {
  csv_metadata : option (gmap string string);
  pdf_data : option (list (gmap string string))
}.

(** The store built by [FAISS(embedding=..., index=..., documents=...)]:
    the vectors added to the index, in order, and the documents stored at
    the same positions. *)
Record FaissDb := mkFaissDb {
  index_vectors : list vector;
  docstore : list Document
}.

(** What the pipeline does to the outside, in the order it happens. *)
Inductive Event :=
| EvEmbed (texts : list string)              (** a call of [embed_documents] *)
| EvSleep (seconds : Z)                      (** [time.sleep] *)
| EvCacheDump (cache : gmap string vector)   (** [json.dump(cache, cache_file)] *)
| EvIndexSave (path : string).               (** [faiss_db.save_local] *)

Record World := mkWorld {
  (** [os.listdir]; [None] when it raises *)
  listdir : string -> option (list string);
  (** [json.load(open(path))]; [None] when either raises *)
  json_files : string -> option RecordFile;
  (** [os.getenv("OPENAI_API_KEY")] *)
  api_key : option string;
  (** content of [embedding_cache.json]; [None] when the file is absent *)
  cache_file : option (gmap string vector);
  (** saved index directories, by path *)
  index_dirs : gmap string FaissDb;
  events : list Event
}.

(** State and exception monad over [World]. *)
Definition M (A : Type) : Type := World -> result A * World.

Definition ret {A} (a : A) : M A := fun w => (Ok a, w).
Definition raise {A} (e : exn) : M A := fun w => (Raise e, w).
Definition bind {A B} (c : M A) (k : A -> M B) : M B :=
  fun w => match c w with
           | (Ok a, w') => k a w'
           | (Raise e, w') => (Raise e, w')
           end.
(** [try: c except Exception: h] *)
Definition try_except {A} (c : M A) (h : exn -> M A) : M A :=
  fun w => match c w with
           | (Ok a, w') => (Ok a, w')
           | (Raise e, w') => h e w'
           end.

Notation "'let*' x ':=' c 'in' k" := (bind c (fun x => k))
  (at level 10, x pattern, c at level 100, k at level 200).

(** The world after one more event. *)
Definition add_event (e : Event) (w : World) : World :=
  mkWorld (listdir w) (json_files w) (api_key w) (cache_file w)
          (index_dirs w) (events w ++ [e]).

(** The world after [json.dump(c, open(cache_file, "w"))]. *)
Definition write_cache (c : gmap string vector) (w : World) : World :=
  add_event (EvCacheDump c)
    (mkWorld (listdir w) (json_files w) (api_key w) (Some c)
             (index_dirs w) (events w)).

(** The world after [db.save_local(path)]. *)
Definition save_index (path : string) (db : FaissDb) (w : World) : World :=
  add_event (EvIndexSave path)
    (mkWorld (listdir w) (json_files w) (api_key w) (cache_file w)
             (<[path := db]> (index_dirs w)) (events w)).

Definition log_event (e : Event) : M unit :=
  fun w => (Ok tt, add_event e w).

Fixpoint foldM {A B} (f : A -> B -> M A) (l : list B) (a : A) : M A :=
  match l with
  | [] => ret a
  | b :: l' => let* a' := f a b in foldM f l' a'
  end.

Definition is_embed (e : Event) : bool :=
  match e with EvEmbed _ => true | _ => false end.
Definition is_cache_dump (e : Event) : bool :=
  match e with EvCacheDump _ => true | _ => false end.

(** Number of provider calls made so far. *)
Definition provider_calls (w : World) : nat :=
  length (List.filter is_embed (events w)).
(** Number of times the cache file has been written. *)
Definition cache_writes (w : World) : nat :=
  length (List.filter is_cache_dump (events w)).

(** ** load_documents *)

Definition str_le (a b : string) : Prop := String.leb a b = true.
#[global] Instance str_le_dec : RelDecision str_le.
Proof. intros a b. unfold str_le. apply _. Defined.

(** [sorted(names)] *)
Definition sorted (names : list string) : list string := merge_sort str_le names.

(** [l[:n]] *)
Definition py_prefix {A} (n : Z) (l : list A) : list A :=
  if (0 <=? n)%Z then firstn (Z.to_nat n) l
  else firstn (length l - Z.to_nat (- n)) l.

(** [os.path.join(folder, name)] for a relative [name] *)
Definition path_join (folder name : string) : string :=
  if truthy folder then
    if endswith folder "/" then folder ++ name else folder ++ "/" ++ name
  else name.

Definition newline : string := String (ascii_of_nat 10) EmptyString.

(** [d.get(key, default)] with the empty string as default *)
Definition get_default (d : gmap string string) (key : string) : string :=
  default EmptyString (d !! key).

(** Lines 32-34: the files visited, in order. *)
Definition select_files (names : list string) (limit_files : option Z)
    : list string :=
  let files := sorted (List.filter (fun f => endswith f ".json") names) in
  match limit_files with
  | Some n => if (n =? 0)%Z then files else py_prefix n files
  | None => files
  end.

(** Lines 42-47 *)
Definition full_text_of (data : RecordFile) : string :=
  let page_texts :=
    map (fun page => strip (get_default page "text"))
        (List.filter (fun page => truthy (strip (get_default page "text")))
                     (default [] (pdf_data data))) in
  str_join newline page_texts.

(** Lines 52-63 *)
Definition metadata_of (data : RecordFile) (filename : string)
    : gmap string string :=
  let metadata := default ∅ (csv_metadata data) in
  <["사업명" := get_default metadata "사업명"]>
  (<["공고번호" := get_default metadata "공고 번호"]>
  (<["공고차수" := get_default metadata "공고 차수"]>
  (<["사업금액" := get_default metadata "사업 금액"]>
  (<["발주기관" := get_default metadata "발주 기관"]>
  (<["입찰참여시작일" := get_default metadata "입찰 참여 시작일"]>
  (<["입찰참여마감일" := get_default metadata "입찰 참여 마감일"]>
  (<["사업요약" := get_default metadata "사업 요약"]>
  (<["파일명" := get_default metadata "파일명"]>
  (<["source" := filename]> ∅))))))))).

(** Lines 36-64: one iteration of the file loop. *)
Definition load_file (folder_path : string) (all_docs : list Document)
    (filename : string) : M (list Document) :=
  fun w =>
    match json_files w (path_join folder_path filename) with
    | None => (Raise ReadError, w)
    | Some data =>
        let full_text := full_text_of data in
        if truthy full_text
        then (Ok (all_docs ++ [mkDocument full_text (metadata_of data filename)]), w)
        else (Ok all_docs, w)
    end.

Definition load_documents (folder_path : string) (limit_files : option Z)
    : M (list Document) :=
  let* names := (fun w => match listdir w folder_path with
                          | Some names => (Ok names, w)
                          | None => (Raise ReadError, w)
                          end) in
  foldM (load_file folder_path) (select_files names limit_files) [].

(** ** The embedding loop, shared by get_retriever and build_faiss_index *)

(** Assignment [d[k] = v] on an insertion-ordered dictionary: a present
    key keeps its position and takes the new value, a new key goes last. *)
Fixpoint dict_set {V} (k : string) (v : V) (d : list (string * V))
    : list (string * V) :=
  match d with
  | [] => [(k, v)]
  | (k', v') :: d' =>
      if String.eqb k' k then (k', v) :: d' else (k', v') :: dict_set k v d'
  end.

(** [{doc.page_content.strip(): doc.metadata for doc in docs}] *)
Definition unique_pairs (docs : list Document)
    : list (string * gmap string string) :=
  fold_left (fun d doc => dict_set (strip (page_content doc)) (metadata doc) d)
            docs [].

(** Lines 197-203 (and 121-124): [texts] and [metadatas] after the
    token-count filter, kept in step as a list of pairs; [min_tokens] is
    2 in get_retriever and 5 in build_faiss_index. *)
Definition filtered_pairs (enc : Encoding) (min_tokens : Z)
    (pairs : list (string * gmap string string))
    : list (string * gmap string string) :=
  let texts := map fst pairs in
  let metadatas := map snd pairs in
  List.filter (fun tm => (min_tokens <? token_len enc (fst tm))%Z)
              (combine texts metadatas).

(** [range(0, n, step)] for [step > 0] *)
Definition range_step (n step : nat) : list nat :=
  map (fun j => j * step) (seq 0 ((n + step - 1) / step)).

(** [[texts[i:i + size] for i in range(0, len(texts), size)]] *)
Definition batches (size : nat) (texts : list string) : list (list string) :=
  map (fun i => firstn size (skipn i texts)) (range_step (length texts) size).

Record EmbedState := mkEmbed {
  cache : gmap string vector;
  embeddings : list vector;
  new_cache_entries : gmap string vector
}.

(** The variables of the inner [for text in batch] loop. *)
Record ScanState := mkScan {
  scan_embeddings : list vector;
  batch_to_embed : list string;
  cache_hits : list string
}.

Section Embedding.
Variable ext : Externals.

(** [embedding.embed_documents(texts)] *)
Definition call_provider (texts : list string) : M (list vector) :=
  fun w =>
    let w' := add_event (EvEmbed texts) w in
    match embed_documents ext (provider_calls w) texts with
    | Some vs => (Ok vs, w')
    | None => (Raise ProviderError, w')
    end.

Definition sleep (seconds : Z) : M unit := log_event (EvSleep seconds).

(** Lines 108-114, over the attempts still to make. *)
Fixpoint retry_loop (attempts : list nat) (texts : list string)
    : M (list vector) :=
  match attempts with
  | [] => raise (RuntimeError "Embedding failed after multiple retries")
  | attempt :: rest =>
      try_except (call_provider texts)
        (fun _ => let* _ := sleep (2 ^ Z.of_nat attempt) in
                  retry_loop rest texts)
  end.

Definition embed_with_retry (texts : list string) (max_retries : nat)
    : M (list vector) :=
  retry_loop (seq 0 max_retries) texts.

(** Lines 104-105, inlined at line 214. *)
Definition hash_text (text : string) : string := md5_hexdigest ext text.

(** Lines 213-219: one text of the batch. *)
Definition scan_text (c : gmap string vector) (s : ScanState)
    (text : string) : ScanState :=
  let h := hash_text text in
  match c !! h with
  | Some v => mkScan (scan_embeddings s ++ [v]) (batch_to_embed s) (cache_hits s)
  | None => mkScan (scan_embeddings s) (batch_to_embed s ++ [text])
                   (cache_hits s ++ [h])
  end.

(** Lines 229-231 *)
Definition store_new (st : gmap string vector * gmap string vector)
    (he : string * vector) : gmap string vector * gmap string vector :=
  (<[fst he := snd he]> (fst st), <[fst he := snd he]> (snd st)).

Variable enc : Encoding.
(** How a batch is sent to the provider: the bare call in get_retriever,
    [embed_with_retry] in build_faiss_index. *)
Variable embed_call : list string -> M (list vector).

(** Lines 210-232: the body of the batch loop. *)
Definition process_batch (st : EmbedState) (batch : list string)
    : M EmbedState :=
  let s := fold_left (scan_text (cache st)) batch
                     (mkScan (embeddings st) [] []) in
  match batch_to_embed s with
  | [] => ret (mkEmbed (cache st) (scan_embeddings s) (new_cache_entries st))
  | _ =>
      let total_tokens :=
        fold_right Z.add 0%Z (map (token_len enc) (batch_to_embed s)) in
      let* embs :=
        (if (280000 <? total_tokens)%Z then
           let mid := (length (batch_to_embed s) / 2)%nat in
           let* a := embed_call (firstn mid (batch_to_embed s)) in
           let* b := embed_call (skipn mid (batch_to_embed s)) in
           ret (a ++ b)
         else embed_call (batch_to_embed s)) in
      let cn := fold_left store_new (combine (cache_hits s) embs)
                          (cache st, new_cache_entries st) in
      ret (mkEmbed (fst cn) (scan_embeddings s ++ embs) (snd cn))
  end.

(** Lines 207-232: the whole loop. *)
Definition embed_loop (size : nat) (c : gmap string vector)
    (texts : list string) : M EmbedState :=
  foldM process_batch (batches size texts) (mkEmbed c [] ∅).

(** Lines 234-235 *)
Definition persist_cache (st : EmbedState) : M unit :=
  if bool_decide (dom (new_cache_entries st) = (∅ : gset string)) then ret tt
  else fun w => (Ok tt, write_cache (cache st) w).

(** Lines 237-246: the flat index takes its dimension from the first
    vector and refuses vectors of another length. Replicating the index on
    GPUs does not change what it holds and is left out. *)
Definition build_index (embs : list vector)
    (pairs : list (string * gmap string string)) : M FaissDb :=
  match embs with
  | [] => raise IndexError
  | e0 :: _ =>
      if forallb (fun e => Nat.eqb (length e) (length e0)) embs
      then ret (mkFaissDb embs
                  (map (fun tm => mkDocument (fst tm) (snd tm))
                       (combine (map fst pairs) (map snd pairs))))
      else raise (ValueError "inhomogeneous embedding dimensions")
  end.

End Embedding.

(** Lines 118 and 190: the cache read at start, empty when the file is
    absent. *)
Definition load_cache : M (gmap string vector) :=
  fun w => (Ok (default ∅ (cache_file w)), w).

(** ** build_faiss_index and get_retriever *)

(** The retriever objects handed to langchain, kept as the constructor
    calls the source makes. *)
Inductive Retriever :=
| BM25Retriever (docs : list Document)
    (** [BM25Retriever.from_documents(docs)] *)
| VectorStoreRetriever (db : FaissDb) (search_type : string) (k : Z).
    (** [db.as_retriever(search_type=..., search_kwargs={"k": k})] *)

(** [EnsembleRetriever(retrievers=..., weights=...)] *)
Record EnsembleRetriever := mkEnsemble {
  retrievers : list Retriever;
  weights : list Q
}.

Definition small_model : string := "text-embedding-3-small".
Definition large_model : string := "text-embedding-3-large".

Section Pipeline.
Variable ext : Externals.

(** Lines 103-168 *)
Definition build_faiss_index (docs : list Document) (batch_size : Z)
    : M FaissDb :=
  let enc := encoding_for_model ext large_model in
  let* c := load_cache in
  let pairs := filtered_pairs enc 5 (unique_pairs docs) in
  let texts := map fst pairs in
  let* st :=
    (if (batch_size =? 0)%Z
     then raise (ValueError "range() arg 3 must not be zero")
     else embed_loop ext enc (fun ts => embed_with_retry ext ts 3)
                     (Z.to_nat batch_size) c texts) in
  let* _ := persist_cache st in
  build_index (embeddings st) pairs.

(** Lines 196-247: the branch of get_retriever that embeds the chunks,
    builds the index and saves it. *)
Definition embed_and_index (c : gmap string vector)
    (chunks : list Document) (index_path : string) : M FaissDb :=
  let enc := encoding_for_model ext small_model in
  let pairs0 := unique_pairs chunks in
  match map fst pairs0 with
  | [] => raise (ValueError "No texts for embedding.")
  | _ =>
      let pairs := filtered_pairs enc 2 pairs0 in
      let texts := map fst pairs in
      match texts with
      | [] => raise (ValueError "All texts filtered out.")
      | _ =>
          let* st := embed_loop ext enc (call_provider ext) 100 c texts in
          let* _ := persist_cache st in
          let* faiss_db := build_index (embeddings st) pairs in
          let* _ := (fun w => (Ok tt, save_index index_path faiss_db w)) in
          ret faiss_db
      end
  end.

(** Lines 171-256 *)
Definition get_retriever (documents_path index_path : string)
    (reuse_index : bool) (k : Z) (limit_files : option Z)
    : M EnsembleRetriever :=
  let* documents := load_documents documents_path limit_files in
  match documents with
  | [] => raise (ValueError "No documents found.")
  | _ =>
      let chunks :=
        Chunker.semantic_token_chunk_documents ext 300 50 small_model
                                               documents in
      match chunks with
      | [] => raise (ValueError "No chunks created.")
      | _ =>
          let* key := (fun w => (Ok (default EmptyString (api_key w)), w)) in
          if negb (truthy key)
          then raise (ValueError "OPENAI_API_KEY is not set.")
          else
            let* c := load_cache in
            let* faiss_db :=
              (fun w =>
                 match (if reuse_index then index_dirs w !! index_path
                        else None) with
                 | Some db => (Ok db, w)
                 | None => embed_and_index c chunks index_path w
                 end) in
            let bm25_retriever := BM25Retriever chunks in
            ret (mkEnsemble
                   [bm25_retriever;
                    VectorStoreRetriever faiss_db "similarity" k]
                   [1 # 2; 1 # 2]%Q)
      end
  end.

End Pipeline.

(** ** split_sentences

    Lines 26-27: [re.split(r'(?<=[.!?])\s+', text.strip())]. The pipeline
    itself tokenizes with nltk; this splitter is the one the examples below
    plug in for it. *)

Definition is_terminator (c : ascii) : bool :=
  let n := nat_of_ascii c in
  Nat.eqb n 46 || Nat.eqb n 33 || Nat.eqb n 63.

Definition cons_head (c : ascii) (pieces : list string) : list string :=
  match pieces with
  | p :: ps => String c p :: ps
  | [] => [String c EmptyString]
  end.

(** [split_from prev skipping s]: the pieces of [s], the first of which
    continues the piece being read; [prev] tells whether the previous
    character ends a sentence, [skipping] whether a separator is being
    consumed. *)
Fixpoint split_from (prev skipping : bool) (s : string) : list string :=
  match s with
  | EmptyString => [EmptyString]
  | String c s' =>
      if skipping && isspace c then split_from false true s'
      else if prev && isspace c then EmptyString :: split_from false true s'
      else cons_head c (split_from (is_terminator c) false s')
  end.

Definition split_sentences (text : string) : list string :=
  split_from false false (strip text).

(** ** Concrete stand-ins for the external code, used by the examples *)

Module Fixture.

(** One token per character. *)
Definition char_encoding : Encoding :=
  mkEncoding (fun s => map nat_of_ascii (list_ascii_of_string s))
             (fun l => string_of_list_ascii (map ascii_of_nat l)).

(** A provider that never fails and maps a text to a one-coordinate
    vector holding its length. *)
Definition steady (_ : nat) (texts : list string) : option (list vector) :=
  Some (map (fun t => [Z.of_nat (String.length t) # 1]%Q) texts).

(** A provider that raises on its first [n] calls and then behaves like
    [steady]. *)
Definition failing_first (n : nat) (calls : nat) (texts : list string)
    : option (list vector) :=
  if Nat.ltb calls n then None else steady calls texts.

(** Externals with the character tokenizer, [split_sentences] as the
    sentence tokenizer and the text itself as its digest. *)
Definition externals (provider : nat -> list string -> option (list vector))
    : Externals :=
  mkExternals split_sentences (fun _ => char_encoding) (fun t => t) provider.

Definition doc (text source : string) : Document :=
  mkDocument text {[ "source" := source ]}.

Definition world (files : list (string * RecordFile))
    (key : option string) (c : option (gmap string vector))
    (saved : gmap string FaissDb) : World :=
  mkWorld (fun folder => if String.eqb folder "data"
                         then Some (map fst files) else None)
          (fun path => (list_to_map
                          (map (fun fr => (path_join "data" (fst fr), snd fr))
                               files) : gmap string RecordFile) !! path)
          key c saved [].

(** A record with a single page. *)
Definition one_page (title text : string) : RecordFile :=
  mkRecordFile (Some {[ "사업명" := title ]}) (Some [ {[ "text" := text ]} ]).

End Fixture.

(** ** Vocabulary of the statements *)

(** How the chunker counts a buffer: [tallied enc overlap buf n] holds when
    [n] is the value [buffer_token_count] has for the buffer [buf]. An
    empty buffer counts 0, a buffer seeded with overlap text counts the
    tokens of its joined text, and every appended sentence adds its own
    token count. *)
Inductive tallied (enc : Encoding) (overlap_tokens : Z)
    : list string -> Z -> Prop :=
| tallied_empty : tallied enc overlap_tokens [] 0
| tallied_seed ov s :
    (0 < overlap_tokens)%Z ->
    tallied enc overlap_tokens [ov; s] (token_len enc (str_join " " [ov; s]))
| tallied_append buf n s :
    tallied enc overlap_tokens buf n ->
    tallied enc overlap_tokens (buf ++ [s]) (n + token_len enc s).

(** The token bound as the specification words it: a chunk has at most
    [max_tokens] tokens unless it is exactly one sentence of some document
    that alone exceeds [max_tokens]. *)
Definition budget_claim (ext : Externals) (max_tokens overlap_tokens : Z)
    (model_name : string) (documents : list Document) : Prop :=
  let enc := encoding_for_model ext model_name in
  Forall (fun c =>
            (token_len enc (page_content c) <= max_tokens)%Z \/
            exists d s, In d documents /\
                        In s (sent_tokenize ext (page_content d)) /\
                        (max_tokens < token_len enc s)%Z /\
                        page_content c = s)
         (Chunker.semantic_token_chunk_documents
            ext max_tokens overlap_tokens model_name documents).

(** The buffers the chunker may emit over budget: the empty buffer, and a
    buffer seeded on overflow to which no sentence was appended since,
    which is the overflowing sentence alone when there is no overlap and
    the overlap text followed by that sentence otherwise. *)
Definition unextended_seed (enc : Encoding) (max_tokens overlap_tokens : Z)
    (sentences : list string) (buf : list string) : Prop :=
  buf = [] \/
  ((overlap_tokens <= 0)%Z /\
   exists s, In s sentences /\ buf = [s] /\ (max_tokens < token_len enc s)%Z) \/
  ((0 < overlap_tokens)%Z /\
   exists ov s, In s sentences /\ buf = [ov; s]).

(** Invariant of the sentence loop of one document with metadata [md] and
    sentences [sentences]: the count is the count of the buffer, it is
    within budget unless the buffer is an unextended seed, and the same
    holds of every chunk emitted so far. *)
Definition chunk_loop_inv (enc : Encoding) (max_tokens overlap_tokens : Z)
    (md : gmap string string) (sentences : list string)
    (st : Chunker.LoopState) : Prop :=
  tallied enc overlap_tokens (Chunker.buffer st)
          (Chunker.buffer_token_count st) /\
  ((Chunker.buffer_token_count st <= max_tokens)%Z \/
   unextended_seed enc max_tokens overlap_tokens sentences
                   (Chunker.buffer st)) /\
  Forall (fun c =>
            metadata c = md /\
            exists buf cnt,
              page_content c = str_join " " buf /\
              tallied enc overlap_tokens buf cnt /\
              ((cnt <= max_tokens)%Z \/
               unextended_seed enc max_tokens overlap_tokens sentences buf))
         (Chunker.emitted st).

(** What holds of every chunk: it carries its document's metadata and is
    the join of a buffer whose count is within budget or which is an
    unextended seed. *)
Definition chunk_within_budget (ext : Externals) (max_tokens overlap_tokens : Z)
    (model_name : string) (documents : list Document) (c : Document) : Prop :=
  let enc := encoding_for_model ext model_name in
  exists d buf cnt,
    In d documents /\
    metadata c = metadata d /\
    page_content c = str_join " " buf /\
    tallied enc overlap_tokens buf cnt /\
    ((cnt <= max_tokens)%Z \/
     unextended_seed enc max_tokens overlap_tokens
                     (sent_tokenize ext (page_content d)) buf).

(** A way of calling the provider that neither writes the cache file nor
    counts as a cache write. *)
Definition leaves_cache_file (embed_call : list string -> M (list vector))
    : Prop :=
  forall ts w,
    cache_file (snd (embed_call ts w)) = cache_file w /\
    cache_writes (snd (embed_call ts w)) = cache_writes w.

(** Persistence as the data model words it: once a batch has been
    processed, the entries it added are in the cache file. *)
Definition persisted_per_batch_claim : Prop :=
  forall (ext : Externals) (enc : Encoding) (st st' : EmbedState)
         (batch : list string) (w w' : World),
    process_batch ext enc (call_provider ext) st batch w = (Ok st', w') ->
    forall h v,
      new_cache_entries st !! h = None ->
      new_cache_entries st' !! h = Some v ->
      exists c, cache_file w' = Some c /\ c !! h = Some v.

(** The provider contract: a call that returns gives one vector per
    text. *)
Definition provider_contract (ext : Externals) : Prop :=
  forall n ts vs, embed_documents ext n ts = Some vs -> length vs = length ts.

(** The texts get_retriever sends through the embedding loop for the
    documents [docs] (lines 178 and 196-203). *)
Definition texts_to_embed (ext : Externals) (docs : list Document)
    : list string :=
  map fst (filtered_pairs (encoding_for_model ext small_model) 2
             (unique_pairs (Chunker.semantic_token_chunk_documents
                              ext 300 50 small_model docs))).

(** The cached vectors of the texts of a batch that are in the cache [c],
    and the texts that are not, both in batch order. *)
Definition batch_hits (ext : Externals) (c : gmap string vector)
    (batch : list string) : list vector :=
  flat_map (fun t => match c !! md5_hexdigest ext t with
                     | Some v => [v]
                     | None => []
                     end) batch.

Definition is_miss (ext : Externals) (c : gmap string vector) (t : string)
    : bool :=
  match c !! md5_hexdigest ext t with Some _ => false | None => true end.

Definition batch_misses (ext : Externals) (c : gmap string vector)
    (batch : list string) : list string :=
  List.filter (is_miss ext c) batch.

(** Two worlds that present the same record files and the same API key. *)
Definition same_inputs (w w' : World) : Prop :=
  listdir w' = listdir w /\ json_files w' = json_files w /\
  api_key w' = api_key w.

(** Every text of [texts] has its digest in the cache [c]. *)
Definition all_cached (ext : Externals) (c : gmap string vector)
    (texts : list string) : Prop :=
  forall t, In t texts -> is_Some (c !! md5_hexdigest ext t).

(** The fixed metadata fields of a Document: the key it is stored under
    and the key it is read from in [csv_metadata]. *)
Definition field_table : list (string * string) :=
  [("사업명", "사업명"); ("공고번호", "공고 번호"); ("공고차수", "공고 차수");
   ("사업금액", "사업 금액"); ("발주기관", "발주 기관");
   ("입찰참여시작일", "입찰 참여 시작일");
   ("입찰참여마감일", "입찰 참여 마감일"); ("사업요약", "사업 요약");
   ("파일명", "파일명")].

(** The record files among [files] that can be read, with their names. *)
Definition read_records (w : World) (folder : string) (files : list string)
    : list (string * RecordFile) :=
  flat_map (fun f => match json_files w (path_join folder f) with
                     | Some data => [(f, data)]
                     | None => []
                     end) files.

(** The Document made from a record file. *)
Definition document_of (fd : string * RecordFile) : Document :=
  mkDocument (full_text_of (snd fd)) (metadata_of (snd fd) (fst fd)).

(** The record has a page that is not blank. *)
Definition has_content (fd : string * RecordFile) : bool :=
  truthy (full_text_of (snd fd)).

(** The stripped texts of the pages of a record, blank ones included. *)
Definition stripped_pages (data : RecordFile) : list string :=
  map (fun page => strip (get_default page "text")) (default [] (pdf_data data)).

(** The chunk texts of a document with content [content]; they do not
    depend on its metadata. *)
Definition chunk_texts (ext : Externals) (max_tokens overlap_tokens : Z)
    (model_name : string) (content : string) : list string :=
  map page_content
      (Chunker.chunk_document ext max_tokens overlap_tokens model_name
                              (mkDocument content ∅)).

(** The collapse of identical documents as the specification words it:
    whatever the common content, exactly one text goes to embedding. *)
Definition single_text_claim : Prop :=
  forall (ext : Externals) (content : string)
         (mds : list (gmap string string)),
    mds <> [] ->
    length (texts_to_embed ext (map (mkDocument content) mds)) = 1.

(** ** enrich_documents_with_metadata *)

(** Lines 262-275: the text made for one retrieved document, the metadata
    block followed by an empty line and the content. *)
Definition enrich_document (doc : Document) : string :=
  let meta := metadata doc in
  let meta_text :=
   ("[메타데이터]" ++ newline ++
    "- 사업명: " ++ get_default meta "사업명" ++ newline ++
    "- 공고번호: " ++ get_default meta "공고번호" ++ newline ++
    "- 공고차수: " ++ get_default meta "공고차수" ++ newline ++
    "- 사업금액: " ++ get_default meta "사업금액" ++ newline ++
    "- 발주기관: " ++ get_default meta "발주기관" ++ newline ++
    "- 입찰참여시작일: " ++ get_default meta "입찰참여시작일" ++ newline ++
    "- 입찰참여마감일: " ++ get_default meta "입찰참여마감일" ++ newline ++
    "- 사업요약: " ++ get_default meta "사업요약" ++ newline ++
    "- 파일명: " ++ get_default meta "파일명" ++ newline)%string in
  (meta_text ++ newline ++ page_content doc)%string.

(** Lines 259-276 *)
Definition enrich_documents_with_metadata (docs : list Document) : string :=
  str_join (newline ++ newline)%string (map enrich_document docs).

(** ** Vocabulary of the further properties *)

(** The sum of the token counts of a list of sentences. *)
Definition total_tokens (enc : Encoding) (sentences : list string) : Z :=
  fold_right Z.add 0%Z (map (token_len enc) sentences).

(** The characters of a string that are not whitespace, in order. *)
Definition visible (s : string) : list ascii :=
  List.filter (fun c => negb (isspace c)) (list_ascii_of_string s).

(** The string ends with '.', '!' or '?'. *)
Fixpoint ends_with_terminator (s : string) : bool :=
  match s with
  | EmptyString => false
  | String c EmptyString => is_terminator c
  | String _ s' => ends_with_terminator s'
  end.

(** The string holds one of '.', '!' and '?'. *)
Definition has_terminator (s : string) : bool :=
  existsb is_terminator (list_ascii_of_string s).

(** The world after a list of events, oldest first. *)
Definition add_events (evs : list Event) (w : World) : World :=
  fold_left (fun w e => add_event e w) evs w.

(** What [i] failed attempts starting with attempt number [a] leave in the
    log: each a provider call followed by a sleep of 2^attempt seconds. *)
Definition failed_attempts (texts : list string) (a i : nat) : list Event :=
  flat_map (fun j => [EvEmbed texts; EvSleep (2 ^ Z.of_nat j)]) (seq a i).

(** The ten keys of the metadata of a loaded Document. *)
Definition metadata_keys : gset string :=
  list_to_set ("source" :: map fst field_table).

(** The file a loaded Document was read from. *)
Definition source_of (doc : Document) : string :=
  get_default (metadata doc) "source".

(** The vector the cache [c] holds for a text, if any. *)
Definition cached_vector (ext : Externals) (c : gmap string vector)
    (t : string) : option vector :=
  c !! hash_text ext t.

(** The events of a run are provider calls for texts that were not in the
    cache [c]. *)
Definition only_misses_sent (ext : Externals) (c : gmap string vector)
    (evs : list Event) : Prop :=
  Forall (fun e => exists ts, e = EvEmbed ts /\
                              forall t, In t ts -> cached_vector ext c t = None)
         evs.

(** A way of calling the provider that only adds events to the log. *)
Definition only_logs (embed_call : list string -> M (list vector)) : Prop :=
  forall ts w, exists evs, snd (embed_call ts w) = add_events evs w.

(** The text shown for a record file: its nine fields, read under the
    keys of the record, then an empty line and its text. *)
Definition record_block (data : RecordFile) : string :=
  let csv := default ∅ (csv_metadata data) in
  let meta_text :=
   ("[메타데이터]" ++ newline ++
    "- 사업명: " ++ get_default csv "사업명" ++ newline ++
    "- 공고번호: " ++ get_default csv "공고 번호" ++ newline ++
    "- 공고차수: " ++ get_default csv "공고 차수" ++ newline ++
    "- 사업금액: " ++ get_default csv "사업 금액" ++ newline ++
    "- 발주기관: " ++ get_default csv "발주 기관" ++ newline ++
    "- 입찰참여시작일: " ++ get_default csv "입찰 참여 시작일" ++ newline ++
    "- 입찰참여마감일: " ++ get_default csv "입찰 참여 마감일" ++ newline ++
    "- 사업요약: " ++ get_default csv "사업 요약" ++ newline ++
    "- 파일명: " ++ get_default csv "파일명" ++ newline)%string in
  (meta_text ++ newline ++ full_text_of data)%string.

(** * Properties *)

(** ** Chunker *)

Section ChunkerFacts.
Variable ext : Externals.
Variables max_tokens overlap_tokens : Z.
Variable model_name : string.

Abbreviation enc := (encoding_for_model ext model_name).
Abbreviation step :=
  (Chunker.sentence_step ext max_tokens overlap_tokens model_name).
Abbreviation chunk_document :=
  (Chunker.chunk_document ext max_tokens overlap_tokens model_name).
Abbreviation chunk_documents :=
  (Chunker.semantic_token_chunk_documents
     ext max_tokens overlap_tokens model_name).

Lemma chunk_documents_acc (docs : list Document) (acc : list Document) :
  fold_left (fun chunked_docs doc => chunked_docs ++ chunk_document doc)
            docs acc
  = acc ++ concat (map chunk_document docs).
Proof.
  revert acc. induction docs as [|d docs IH]; intros acc; simpl.
  - now rewrite app_nil_r.
  - rewrite IH. now rewrite <- app_assoc.
Qed.

(** All chunks, document by document. *)
Lemma chunk_documents_concat (docs : list Document) :
  chunk_documents docs = concat (map chunk_document docs).
Proof. unfold Chunker.semantic_token_chunk_documents. apply chunk_documents_acc. Qed.

Lemma In_chunk_documents (docs : list Document) (c : Document) :
  In c (chunk_documents docs) <->
  exists d, In d docs /\ In c (chunk_document d).
Proof.
  rewrite chunk_documents_concat, in_concat. split.
  - intros (l & Hl & Hc). apply in_map_iff in Hl as (d & <- & Hd). eauto.
  - intros (d & Hd & Hc). exists (chunk_document d). split; [|exact Hc].
    apply in_map_iff. eauto.
Qed.

(** The sentence loop only ever appends to the chunks already emitted. *)
Lemma emitted_step md st s :
  exists more, Chunker.emitted (step md st s) = Chunker.emitted st ++ more.
Proof.
  unfold Chunker.sentence_step.
  destruct (_ <=? _)%Z; simpl.
  - exists []. now rewrite app_nil_r.
  - destruct (0 <? overlap_tokens)%Z; simpl; eauto.
Qed.

Lemma emitted_fold md sentences st :
  exists more,
    Chunker.emitted (fold_left (step md) sentences st)
    = Chunker.emitted st ++ more.
Proof.
  revert st. induction sentences as [|s ss IH]; intros st; simpl.
  - exists []. now rewrite app_nil_r.
  - destruct (IH (step md st s)) as [m1 H1].
    destruct (emitted_step md st s) as [m2 H2].
    exists (m2 ++ m1). now rewrite H1, H2, app_assoc.
Qed.

(** The two ways a sentence is taken up that the examples below need. *)
Lemma step_append md st s :
  (Chunker.buffer_token_count st + token_len enc s <= max_tokens)%Z ->
  step md st s
  = Chunker.mkLoop (Chunker.emitted st) (Chunker.buffer st ++ [s])
                   (Chunker.buffer_token_count st + token_len enc s).
Proof.
  intros H. unfold Chunker.sentence_step.
  destruct (Z.leb_spec (Chunker.buffer_token_count st + token_len enc s)
                       max_tokens); [reflexivity|lia].
Qed.

Lemma step_overflow_with_overlap md st s :
  (max_tokens < Chunker.buffer_token_count st + token_len enc s)%Z ->
  (0 < overlap_tokens)%Z ->
  step md st s
  = let seed := [decode enc
                   (encode enc (str_suffix overlap_tokens
                                  (str_join " " (Chunker.buffer st))));
                 s] in
    Chunker.mkLoop
      (Chunker.emitted st ++ [mkDocument (str_join " " (Chunker.buffer st)) md])
      seed (token_len enc (str_join " " seed)).
Proof.
  intros H Hov. unfold Chunker.sentence_step.
  destruct (Z.leb_spec (Chunker.buffer_token_count st + token_len enc s)
                       max_tokens); [lia|].
  destruct (Z.ltb_spec 0 overlap_tokens); [reflexivity|lia].
Qed.

(** Once a sentence has been taken up the buffer is not empty, so the
    buffer is empty at the start of a document only. *)
Lemma buffer_after_step md st s : Chunker.buffer (step md st s) <> [].
Proof.
  unfold Chunker.sentence_step.
  destruct (_ <=? _)%Z; cbn.
  - destruct (Chunker.buffer st); discriminate.
  - destruct (0 <? overlap_tokens)%Z; discriminate.
Qed.

(** A sentence that overflows an empty buffer makes the loop emit the
    empty buffer, and is itself put last in the new buffer. *)
Lemma overflow_on_empty_buffer md out s :
  (max_tokens < token_len enc s)%Z ->
  let st' := step md (Chunker.mkLoop out [] 0) s in
  Chunker.emitted st' = out ++ [mkDocument EmptyString md] /\
  last (Chunker.buffer st') = Some s.
Proof.
  intros Hlen. unfold Chunker.sentence_step.
  cbn [Chunker.buffer_token_count Chunker.emitted Chunker.buffer].
  destruct (Z.leb_spec (0 + token_len enc s) max_tokens) as [Hle|_]; [lia|].
  destruct (0 <? overlap_tokens)%Z; cbn; auto.
Qed.

End ChunkerFacts.

(** C9. When the first sentence of a document alone exceeds [max_tokens],
    the buffer is still empty and is emitted as a chunk with empty text
    before the sentence is taken up: the document's chunks start with that
    empty chunk, it is among the chunks of the whole run, and the same
    happens at any point of the loop where the buffer is empty. *)
Theorem empty_chunk_before_oversized_sentence
    (ext : Externals) (max_tokens overlap_tokens : Z) (model_name : string)
    (docs : list Document) (doc : Document) (s : string) (rest : list string) :
  In doc docs ->
  sent_tokenize ext (page_content doc) = s :: rest ->
  (max_tokens < token_len (encoding_for_model ext model_name) s)%Z ->
  (exists more,
     Chunker.chunk_document ext max_tokens overlap_tokens model_name doc
     = mkDocument EmptyString (metadata doc) :: more) /\
  In (mkDocument EmptyString (metadata doc))
     (Chunker.semantic_token_chunk_documents
        ext max_tokens overlap_tokens model_name docs) /\
  (forall md out,
     let st' := Chunker.sentence_step ext max_tokens overlap_tokens model_name
                  md (Chunker.mkLoop out [] 0) s in
     Chunker.emitted st' = out ++ [mkDocument EmptyString md] /\
     last (Chunker.buffer st') = Some s).
Proof.
  intros Hin Hs Hlen.
  assert (Hdoc : exists more,
     Chunker.chunk_document ext max_tokens overlap_tokens model_name doc
     = mkDocument EmptyString (metadata doc) :: more).
  { unfold Chunker.chunk_document. rewrite Hs. simpl fold_left.
    destruct (overflow_on_empty_buffer ext max_tokens overlap_tokens model_name
                (metadata doc) [] s Hlen) as [He _].
    destruct (emitted_fold ext max_tokens overlap_tokens model_name
                (metadata doc) rest
                (Chunker.sentence_step ext max_tokens overlap_tokens model_name
                   (metadata doc) (Chunker.mkLoop [] [] 0) s)) as [more Hm].
    rewrite He in Hm. simpl in Hm.
    destruct (Chunker.buffer _); rewrite Hm; simpl; eauto. }
  split; [exact Hdoc|]. split.
  - apply In_chunk_documents. exists doc. split; [exact Hin|].
    destruct Hdoc as [more ->]. now left.
  - intros md out. now apply overflow_on_empty_buffer.
Qed.

(** C9, at a concrete input: with a budget of 3 tokens the sentence
    "Aaaaa." overflows the empty buffer and an empty chunk comes first. *)
Lemma empty_chunk_before_oversized_sentence_witness :
  exists more,
    Chunker.chunk_document (Fixture.externals Fixture.steady) 3 0 small_model
      (Fixture.doc "Aaaaa. Bbb." "a.json")
    = mkDocument EmptyString (metadata (Fixture.doc "Aaaaa. Bbb." "a.json")) :: more.
Proof.
  refine (proj1 (empty_chunk_before_oversized_sentence
            (Fixture.externals Fixture.steady) 3 0 small_model
            [Fixture.doc "Aaaaa. Bbb." "a.json"]
            (Fixture.doc "Aaaaa. Bbb." "a.json") "Aaaaa." ["Bbb."] _ _ _)).
  - simpl. auto.
  - reflexivity.
  - vm_compute. reflexivity.
Defined.

Section ChunkerBudget.
Variable ext : Externals.
Variables max_tokens overlap_tokens : Z.
Variable model_name : string.

Abbreviation enc' := (encoding_for_model ext model_name).

(** Without overlap the count of a buffer is the sum of the token counts
    of its sentences. *)
Lemma tallied_sum (buf : list string) (n : Z) :
  (overlap_tokens <= 0)%Z ->
  tallied enc' overlap_tokens buf n ->
  n = fold_right Z.add 0%Z (map (token_len enc') buf).
Proof.
  intros Hov H. induction H as [|ov s Hpos|buf n s H IH].
  - reflexivity.
  - lia.
  - rewrite map_app, fold_right_app. simpl.
    rewrite IH. clear.
    induction buf as [|b buf IHb]; simpl; lia.
Qed.

Variable md : gmap string string.
Variable sentences : list string.

Abbreviation loop_inv :=
  (chunk_loop_inv enc' max_tokens overlap_tokens md sentences).

Lemma loop_inv_init : loop_inv (Chunker.mkLoop [] [] 0).
Proof.
  repeat split; simpl.
  - constructor.
  - right. now left.
  - constructor.
Qed.

Lemma loop_inv_step st s :
  In s sentences -> loop_inv st ->
  loop_inv (Chunker.sentence_step ext max_tokens overlap_tokens model_name
                                  md st s).
Proof.
  intros Hs (Ht & Hb & He). unfold Chunker.sentence_step.
  destruct (Z.leb_spec (Chunker.buffer_token_count st + token_len enc' s)
                       max_tokens) as [Hle|Hgt].
  - repeat split; cbn.
    + now constructor.
    + now left.
    + exact He.
  - assert (He' : Forall (fun c =>
            metadata c = md /\
            exists buf cnt,
              page_content c = str_join " " buf /\
              tallied enc' overlap_tokens buf cnt /\
              ((cnt <= max_tokens)%Z \/
               unextended_seed enc' max_tokens overlap_tokens sentences buf))
         (Chunker.emitted st
            ++ [mkDocument (str_join " " (Chunker.buffer st)) md])).
    { apply Forall_app. split; [exact He|].
      constructor; [|constructor]. cbn. split; [reflexivity|].
      exists (Chunker.buffer st), (Chunker.buffer_token_count st). auto. }
    destruct (Z.ltb_spec 0 overlap_tokens) as [Hov|Hov].
    + repeat split; cbn.
      * now constructor.
      * right. right. right. split; [exact Hov|]. eauto.
      * exact He'.
    + repeat split; cbn.
      * apply (tallied_append enc' overlap_tokens [] 0 s). constructor.
      * destruct (Z.le_gt_cases (token_len enc' s) max_tokens) as [H|H].
        -- now left.
        -- right. right. left. split; [exact Hov|]. exists s. auto.
      * exact He'.
Qed.

Lemma loop_inv_fold ss st :
  (forall s, In s ss -> In s sentences) -> loop_inv st ->
  loop_inv (fold_left (Chunker.sentence_step ext max_tokens overlap_tokens
                                             model_name md) ss st).
Proof.
  revert st. induction ss as [|s ss IH]; intros st Hsub Hinv; simpl.
  - exact Hinv.
  - apply IH.
    + intros x Hx. apply Hsub. now right.
    + apply loop_inv_step; [apply Hsub; now left | exact Hinv].
Qed.

End ChunkerBudget.

Lemma chunk_document_within_budget
    (ext : Externals) (max_tokens overlap_tokens : Z) (model_name : string)
    (d c : Document) :
  In c (Chunker.chunk_document ext max_tokens overlap_tokens model_name d) ->
  metadata c = metadata d /\
  exists buf cnt,
    page_content c = str_join " " buf /\
    tallied (encoding_for_model ext model_name) overlap_tokens buf cnt /\
    ((cnt <= max_tokens)%Z \/
     unextended_seed (encoding_for_model ext model_name) max_tokens
       overlap_tokens (sent_tokenize ext (page_content d)) buf).
Proof.
  unfold Chunker.chunk_document.
  pose proof (loop_inv_fold ext max_tokens overlap_tokens model_name
                (metadata d) (sent_tokenize ext (page_content d))
                (sent_tokenize ext (page_content d)) (Chunker.mkLoop [] [] 0)
                (fun s H => H)
                (loop_inv_init ext max_tokens overlap_tokens model_name
                               (metadata d) _)) as (Ht & Hb & He).
  set (st := fold_left _ _ _) in *.
  rewrite List.Forall_forall in He.
  destruct (Chunker.buffer st) eqn:Hbuf.
  - intros Hc. now apply He.
  - rewrite in_app_iff. intros [Hc|[<-|[]]]; [now apply He|].
    cbn. split; [reflexivity|].
    exists (s :: l), (Chunker.buffer_token_count st). auto.
Qed.


(** When joining with a space never costs more tokens than the parts taken
    together, the token count of a buffer's joined text is at most the
    count the chunker keeps for it. *)
Lemma tallied_bounds_joined_text (enc : Encoding) (overlap_tokens : Z)
    (buf : list string) (n : Z) :
  token_len enc EmptyString = 0%Z ->
  (forall b bs s,
     (token_len enc (str_join " " ((b :: bs) ++ [s]))
      <= token_len enc (str_join " " (b :: bs)) + token_len enc s)%Z) ->
  tallied enc overlap_tokens buf n ->
  (token_len enc (str_join " " buf) <= n)%Z.
Proof.
  intros Hempty Hsub H. induction H as [|ov s Hpos|buf n s H IH].
  - cbn. rewrite Hempty. lia.
  - lia.
  - destruct buf as [|b bs].
    + cbn in *. rewrite Hempty in IH. lia.
    + specialize (Hsub b bs s). lia.
Qed.

(** Two sentences that do not fit together, with a positive overlap: the
    document gives the first sentence as one chunk and, as a second chunk,
    the overlap text followed by the second sentence, whatever the token
    count of that text. *)
Lemma seeded_chunk (ext : Externals) (max_tokens overlap_tokens : Z)
    (model_name : string) (text : string) (md : gmap string string)
    (s1 s2 : string) :
  let enc := encoding_for_model ext model_name in
  sent_tokenize ext text = [s1; s2] ->
  (0 < overlap_tokens)%Z ->
  (token_len enc s1 <= max_tokens)%Z ->
  (max_tokens < token_len enc s1 + token_len enc s2)%Z ->
  Chunker.chunk_document ext max_tokens overlap_tokens model_name
                         (mkDocument text md)
  = [mkDocument s1 md;
     mkDocument
       (str_join " " [decode enc (encode enc (str_suffix overlap_tokens s1));
                      s2]) md].
Proof.
  intros enc Hs Hov H1 H2. unfold Chunker.chunk_document.
  cbn [page_content metadata]. rewrite Hs. cbn [fold_left].
  rewrite (step_append ext max_tokens overlap_tokens model_name md
             (Chunker.mkLoop [] [] 0) s1) by (cbn; fold enc; lia).
  rewrite step_overflow_with_overlap by (cbn; fold enc; lia).
  reflexivity.
Qed.


(** ** Deduplication *)

Lemma dict_set_keys_in {V} (k : string) (v : V) (d : list (string * V)) :
  In k (map fst d) -> map fst (dict_set k v d) = map fst d.
Proof.
  induction d as [|[k' v'] d IH]; cbn; [contradiction|].
  destruct (String.eqb_spec k' k) as [->|Hne]; [reflexivity|].
  intros [Heq|Hin]; [congruence|]. cbn. now rewrite IH.
Qed.

Lemma dict_set_keys_fresh {V} (k : string) (v : V) (d : list (string * V)) :
  ~ In k (map fst d) -> map fst (dict_set k v d) = map fst d ++ [k].
Proof.
  induction d as [|[k' v'] d IH]; cbn; [reflexivity|].
  intros Hnin. destruct (String.eqb_spec k' k) as [->|Hne]; [tauto|].
  cbn. rewrite IH; tauto.
Qed.

Lemma dict_set_keys_incl {V} (k : string) (v : V) (d : list (string * V)) :
  forall k', In k' (map fst (dict_set k v d)) <-> k' = k \/ In k' (map fst d).
Proof.
  intros k'. destruct (in_dec string_dec k (map fst d)) as [Hin|Hnin].
  - rewrite dict_set_keys_in by exact Hin. split; [tauto|].
    intros [->|H]; assumption.
  - rewrite dict_set_keys_fresh by exact Hnin. rewrite in_app_iff. cbn.
    intuition congruence.
Qed.

Lemma dict_set_NoDup {V} (k : string) (v : V) (d : list (string * V)) :
  NoDup (map fst d) -> NoDup (map fst (dict_set k v d)).
Proof.
  intros Hnd. destruct (in_dec string_dec k (map fst d)) as [Hin|Hnin].
  - now rewrite dict_set_keys_in.
  - rewrite dict_set_keys_fresh by exact Hnin.
    apply NoDup_app. split; [exact Hnd|]. split.
    + intros x Hx Hx'. apply list_elem_of_singleton in Hx'. subst x.
      apply Hnin. now apply list_elem_of_In.
    + apply NoDup_singleton.
Qed.

(** An assignment leaves the other keys alone and gives its key the new
    value. *)
Lemma dict_set_In {V} (k : string) (v : V) (d : list (string * V))
    (k' : string) (v' : V) :
  NoDup (map fst d) ->
  In (k', v') (dict_set k v d) ->
  (k' = k /\ v' = v) \/ (k' <> k /\ In (k', v') d).
Proof.
  induction d as [|[k0 v0] d IH]; cbn.
  - intros _ [[= <- <-]|[]]. now left.
  - intros Hnd. apply NoDup_cons in Hnd as [Hk0 Hnd].
    destruct (String.eqb_spec k0 k) as [->|Hne].
    + intros [[= <- <-]|Hin]; [now left|].
      right. split; [|now right].
      intros ->. apply Hk0. apply list_elem_of_In, in_map_iff.
      now exists (k, v').
    + intros [[= <- <-]|Hin]; [right; split; [congruence|now left]|].
      destruct (IH Hnd Hin) as [?|[? ?]]; [now left|right; split; auto].
Qed.

Section Dedup.
Variable m : gmap string string.

(** The chunks of one document, all with metadata [m], entering the
    dictionary. *)
Lemma fold_dict_set_keys (ks : list string) :
  forall d : list (string * gmap string string),
    NoDup (map fst d) ->
    let d' := fold_left (fun d k => dict_set k m d) ks d in
    NoDup (map fst d') /\
    (forall k, In k (map fst d') <-> In k ks \/ In k (map fst d)) /\
    ((forall k, In k ks -> In k (map fst d)) -> map fst d' = map fst d) /\
    (forall k v, In (k, v) d' ->
                 (In k ks /\ v = m) \/ (~ In k ks /\ In (k, v) d)).
Proof.
  induction ks as [|k0 ks IH]; intros d Hnd; cbn.
  - split; [exact Hnd|]. split; [tauto|]. split; [reflexivity|].
    intros k v H. right. tauto.
  - destruct (IH (dict_set k0 m d) (dict_set_NoDup k0 m d Hnd))
      as (H1 & H2 & H3 & H4).
    split; [exact H1|]. split; [|split].
    + intros k. rewrite H2, dict_set_keys_incl. intuition congruence.
    + intros Hall. rewrite H3.
      * apply dict_set_keys_in. apply Hall. now left.
      * intros k Hk. apply dict_set_keys_incl. right. apply Hall. now right.
    + intros k v Hin. destruct (H4 k v Hin) as [[Hk ->]|[Hk Hin']].
      * left. auto.
      * destruct (dict_set_In _ _ _ _ _ Hnd Hin') as [[-> ->]|[Hne Hd]].
        -- left. auto.
        -- right. split; [|exact Hd]. intros [->|H]; congruence.
Qed.

End Dedup.

Lemma unique_pairs_acc (docs : list Document) :
  forall d,
    fold_left (fun d doc => dict_set (strip (page_content doc)) (metadata doc) d)
              docs d
    = fold_left (fun d km => dict_set (fst km) (snd km) d)
                (map (fun doc => (strip (page_content doc), metadata doc)) docs)
                d.
Proof.
  induction docs as [|doc docs IH]; intros d; cbn; [reflexivity|]. apply IH.
Qed.

(** Chunks that differ in their metadata only. *)
Lemma fold_same_metadata (m : gmap string string) (ts : list string) :
  forall d,
    fold_left (fun d doc => dict_set (strip (page_content doc)) (metadata doc) d)
              (map (fun t => mkDocument t m) ts) d
    = fold_left (fun d k => dict_set k m d) (map strip ts) d.
Proof.
  induction ts as [|t ts IH]; intros d; cbn; [reflexivity|]. apply IH.
Qed.

Lemma last_cons_default {A} (l : list A) (a d d' : A) :
  List.last (a :: l) d = List.last (a :: l) d'.
Proof.
  revert a. induction l as [|b l IH]; intros a; [reflexivity|].
  change (List.last (b :: l) d = List.last (b :: l) d'). apply IH.
Qed.

(** The dictionary after the chunks of [N] copies of a document, each copy
    with its own metadata: the keys of a single copy, all holding the
    metadata of the last copy. *)
Lemma unique_pairs_copies (ts : list string)
    (m0 : gmap string string) (ms : list (gmap string string)) :
  let d := unique_pairs
             (concat (map (fun m => map (fun t => mkDocument t m) ts)
                          (m0 :: ms))) in
  map fst d = map fst (unique_pairs (map (fun t => mkDocument t m0) ts)) /\
  NoDup (map fst d) /\
  (forall k, In k (map fst d) <-> In k (map strip ts)) /\
  (forall k v, In (k, v) d -> v = List.last (m0 :: ms) m0).
Proof.
  unfold unique_pairs. cbn [map concat]. rewrite fold_left_app.
  rewrite !fold_same_metadata.
  destruct (fold_dict_set_keys m0 (map strip ts) [] NoDup_nil_2)
    as (N0 & K0 & _ & V0).
  set (d0 := fold_left (fun d k => dict_set k m0 d) (map strip ts) []) in *.
  assert (Hk0 : forall k, In k (map fst d0) <-> In k (map strip ts))
    by (intros k; rewrite K0; cbn; tauto).
  assert (Hv0 : forall k v, In (k, v) d0 -> v = m0).
  { intros k v H. destruct (V0 k v H) as [[_ ->]|[_ []]]. reflexivity. }
  clearbody d0. clear K0 V0.
  revert m0 d0 N0 Hk0 Hv0.
  induction ms as [|m1 ms IH]; intros m0 d0 N0 Hk0 Hv0.
  - cbn. auto.
  - cbn [map concat]. rewrite fold_left_app, fold_same_metadata.
    destruct (fold_dict_set_keys m1 (map strip ts) d0 N0)
      as (N1 & K1 & E1 & V1).
    set (d1 := fold_left (fun d k => dict_set k m1 d) (map strip ts) d0) in *.
    assert (Hkeys : map fst d1 = map fst d0)
      by (apply E1; intros k Hk; now apply Hk0).
    assert (Hk1 : forall k, In k (map fst d1) <-> In k (map strip ts))
      by (intros k; rewrite Hkeys; apply Hk0).
    assert (Hv1 : forall k v, In (k, v) d1 -> v = m1).
    { intros k v H. destruct (V1 k v H) as [[_ ->]|[Hn Hd]]; [reflexivity|].
      exfalso. apply Hn. apply Hk0. apply in_map_iff. now exists (k, v). }
    clearbody d1.
    destruct (IH m1 d1 N1 Hk1 Hv1) as (A & B & C & D).
    split; [now rewrite A|]. split; [exact B|]. split; [exact C|].
    intros k v H. rewrite (D k v H).
    change (List.last (m1 :: ms) m1 = List.last (m1 :: ms) m0).
    apply last_cons_default.
Qed.

(** The keys of [unique_pairs] are the trimmed texts of the documents. *)
Lemma unique_pairs_keys (docs : list Document) (k : string) :
  In k (map fst (unique_pairs docs)) <->
  exists doc, In doc docs /\ k = strip (page_content doc).
Proof.
  unfold unique_pairs.
  assert (H : forall d : list (string * gmap string string),
    In k (map fst (fold_left
                     (fun d doc => dict_set (strip (page_content doc))
                                            (metadata doc) d) docs d)) <->
    In k (map fst d) \/ exists doc, In doc docs /\ k = strip (page_content doc)).
  { induction docs as [|doc docs IH]; intros d; cbn.
    - split; [tauto|]. intros [H|(doc & [] & _)]. exact H.
    - rewrite IH, dict_set_keys_incl. split.
      + intros [[->|H]|(doc' & Hd & ->)]; eauto.
      + intros [H|(doc' & [->|Hd] & ->)]; eauto. }
  rewrite H. cbn. split; [intros [[]|H']; exact H' | auto].
Qed.

Lemma combine_fst_snd {A B} (l : list (A * B)) :
  combine (map fst l) (map snd l) = l.
Proof. induction l as [|[a b] l IH]; cbn; [reflexivity|]. now rewrite IH. Qed.

Lemma filtered_pairs_In enc min_tokens pairs (t : string)
    (v : gmap string string) :
  In (t, v) (filtered_pairs enc min_tokens pairs) -> In (t, v) pairs.
Proof.
  unfold filtered_pairs. rewrite combine_fst_snd. intros H.
  now apply filter_In in H as [H _].
Qed.

Lemma filtered_pairs_NoDup enc min_tokens
    (pairs : list (string * gmap string string)) :
  NoDup (map fst pairs) -> NoDup (map fst (filtered_pairs enc min_tokens pairs)).
Proof.
  unfold filtered_pairs. rewrite combine_fst_snd.
  induction pairs as [|[t v] pairs IH]; cbn; [auto|].
  intros Hnd. apply NoDup_cons in Hnd as [Hnin Hnd].
  destruct (_ <? _)%Z; cbn; [|now apply IH].
  apply NoDup_cons. split; [|now apply IH].
  intros Hin. apply Hnin. apply list_elem_of_In in Hin.
  apply list_elem_of_In. apply in_map_iff in Hin as ([t' v'] & Ht & Hin).
  cbn in Ht. subst t'. apply filter_In in Hin as [Hin _].
  apply in_map_iff. now exists (t, v').
Qed.

(** ** Provider calls and retries *)

Lemma provider_calls_add_embed (ts : list string) (w : World) :
  provider_calls (add_event (EvEmbed ts) w) = S (provider_calls w).
Proof.
  unfold provider_calls, add_event. cbn.
  rewrite List.filter_app, length_app. cbn. lia.
Qed.

Lemma provider_calls_add_other (e : Event) (w : World) :
  is_embed e = false ->
  provider_calls (add_event e w) = provider_calls w.
Proof.
  intros He. unfold provider_calls, add_event. cbn.
  rewrite List.filter_app, length_app. cbn. rewrite He. cbn. lia.
Qed.

Lemma cache_writes_add_other (e : Event) (w : World) :
  is_cache_dump e = false ->
  cache_writes (add_event e w) = cache_writes w.
Proof.
  intros He. unfold cache_writes, add_event. cbn.
  rewrite List.filter_app, length_app. cbn. rewrite He. cbn. lia.
Qed.

Lemma call_provider_ok (ext : Externals) (ts : list string) (w : World)
    (vs : list vector) :
  embed_documents ext (provider_calls w) ts = Some vs ->
  call_provider ext ts w = (Ok vs, add_event (EvEmbed ts) w).
Proof. intros H. unfold call_provider. now rewrite H. Qed.

Lemma call_provider_fail (ext : Externals) (ts : list string) (w : World) :
  embed_documents ext (provider_calls w) ts = None ->
  call_provider ext ts w = (Raise ProviderError, add_event (EvEmbed ts) w).
Proof. intros H. unfold call_provider. now rewrite H. Qed.

Lemma call_provider_world (ext : Externals) (ts : list string) (w : World) :
  snd (call_provider ext ts w) = add_event (EvEmbed ts) w.
Proof. unfold call_provider. now destruct (embed_documents _ _ _). Qed.

(** Two failures followed by a success: [embed_with_retry] sleeps 1 and 2
    seconds and returns the vectors of the third attempt. *)
Lemma embed_with_retry_third_attempt (ext : Externals) (ts : list string)
    (w : World) (vs : list vector) :
  embed_documents ext (provider_calls w) ts = None ->
  embed_documents ext (S (provider_calls w)) ts = None ->
  embed_documents ext (S (S (provider_calls w))) ts = Some vs ->
  embed_with_retry ext ts 3 w
  = (Ok vs,
     add_event (EvEmbed ts)
       (add_event (EvSleep 2)
          (add_event (EvEmbed ts)
             (add_event (EvSleep 1) (add_event (EvEmbed ts) w))))).
Proof.
  intros H0 H1 H2. unfold embed_with_retry. cbn [seq retry_loop].
  unfold try_except at 1. rewrite (call_provider_fail _ _ _ H0).
  unfold bind at 1, sleep, log_event.
  unfold try_except at 1. rewrite call_provider_fail.
  2:{ rewrite provider_calls_add_other, provider_calls_add_embed by reflexivity.
      exact H1. }
  unfold bind at 1.
  unfold try_except at 1. rewrite (call_provider_ok _ _ _ vs).
  2:{ rewrite provider_calls_add_other, provider_calls_add_embed,
        provider_calls_add_other, provider_calls_add_embed by reflexivity.
      exact H2. }
  reflexivity.
Qed.

(** Three failures: [embed_with_retry] sleeps 1, 2 and 4 seconds (also
    after the last attempt) and raises its RuntimeError; nothing is
    returned. *)
Lemma embed_with_retry_exhausted (ext : Externals) (ts : list string)
    (w : World) :
  embed_documents ext (provider_calls w) ts = None ->
  embed_documents ext (S (provider_calls w)) ts = None ->
  embed_documents ext (S (S (provider_calls w))) ts = None ->
  embed_with_retry ext ts 3 w
  = (Raise (RuntimeError "Embedding failed after multiple retries"),
     add_event (EvSleep 4)
       (add_event (EvEmbed ts)
          (add_event (EvSleep 2)
             (add_event (EvEmbed ts)
                (add_event (EvSleep 1) (add_event (EvEmbed ts) w)))))).
Proof.
  intros H0 H1 H2. unfold embed_with_retry. cbn [seq retry_loop].
  unfold try_except at 1. rewrite (call_provider_fail _ _ _ H0).
  unfold bind at 1, sleep, log_event.
  unfold try_except at 1. rewrite call_provider_fail.
  2:{ rewrite provider_calls_add_other, provider_calls_add_embed by reflexivity.
      exact H1. }
  unfold bind at 1.
  unfold try_except at 1. rewrite call_provider_fail.
  2:{ rewrite provider_calls_add_other, provider_calls_add_embed,
        provider_calls_add_other, provider_calls_add_embed by reflexivity.
      exact H2. }
  reflexivity.
Qed.

Lemma batches_single (size : nat) (texts : list string) :
  texts <> [] -> length texts <= size ->
  batches size texts = [texts].
Proof.
  intros Hne Hlen. unfold batches, range_step.
  assert (Hq : (length texts + size - 1) / size = 1).
  { destruct texts as [|t ts]; [congruence|]. cbn [length] in *.
    symmetry. apply (Nat.div_unique _ _ 1 (length ts)); lia. }
  rewrite Hq. cbn. rewrite firstn_all2 by exact Hlen. reflexivity.
Qed.

(** The scan of a batch splits it into cached vectors and texts to embed,
    each in batch order. *)
Lemma scan_fold (ext : Externals) (c : gmap string vector)
    (batch : list string) (s : ScanState) :
  fold_left (scan_text ext c) batch s
  = mkScan (scan_embeddings s ++ batch_hits ext c batch)
           (batch_to_embed s ++ batch_misses ext c batch)
           (cache_hits s
              ++ map (md5_hexdigest ext) (batch_misses ext c batch)).
Proof.
  revert s. induction batch as [|t batch IH]; intros s.
  - cbn. rewrite !app_nil_r. now destruct s.
  - cbn [fold_left]. rewrite IH.
    unfold scan_text, hash_text, batch_hits, batch_misses.
    cbn [flat_map List.filter]. unfold is_miss.
    destruct (c !! md5_hexdigest ext t) as [v|]; cbn;
      now rewrite <- ?app_assoc.
Qed.

(** What one round of the batch loop does, in terms of the hits and misses
    of the batch. *)
Lemma process_batch_eq (ext : Externals) (enc : Encoding)
    (embed_call : list string -> M (list vector))
    (st : EmbedState) (batch : list string) :
  process_batch ext enc embed_call st batch
  = let misses := batch_misses ext (cache st) batch in
    let hits := batch_hits ext (cache st) batch in
    match misses with
    | [] => ret (mkEmbed (cache st) (embeddings st ++ hits)
                         (new_cache_entries st))
    | _ =>
        let* embs :=
          (if (280000 <? fold_right Z.add 0 (map (token_len enc) misses))%Z
           then
             let* a := embed_call (firstn (length misses / 2) misses) in
             let* b := embed_call (skipn (length misses / 2) misses) in
             ret (a ++ b)
           else embed_call misses) in
        let cn := fold_left (store_new)
                    (combine (map (md5_hexdigest ext) misses) embs)
                    (cache st, new_cache_entries st) in
        ret (mkEmbed (fst cn) ((embeddings st ++ hits) ++ embs) (snd cn))
    end.
Proof.
  unfold process_batch. rewrite scan_fold. cbn. reflexivity.
Qed.

(** C3, on get_retriever. When the provider raises on a call and would
    answer the next one, the embedding loop of get_retriever makes that
    single call, sleeps not at all and ends with the provider's exception,
    while [embed_with_retry], which only build_faiss_index uses, returns
    the vectors of the second attempt for the same text. *)
Theorem provider_failure_not_retried
    (ext : Externals) (enc : Encoding) (c : gmap string vector)
    (t : string) (w : World) (vs : list vector) :
  c !! md5_hexdigest ext t = None ->
  (token_len enc t <= 280000)%Z ->
  embed_documents ext (provider_calls w) [t] = None ->
  embed_documents ext (S (provider_calls w)) [t] = Some vs ->
  embed_loop ext enc (call_provider ext) 100 c [t] w
  = (Raise ProviderError, add_event (EvEmbed [t]) w) /\
  embed_with_retry ext [t] 3 w
  = (Ok vs,
     add_event (EvEmbed [t]) (add_event (EvSleep 1) (add_event (EvEmbed [t]) w))).
Proof.
  intros Hmiss Htok H0 H1. split.
  - unfold embed_loop. rewrite batches_single by (cbn; try congruence; lia).
    cbn [foldM]. rewrite process_batch_eq.
    unfold batch_misses, batch_hits, is_miss. cbn [List.filter flat_map cache app].
    rewrite Hmiss. cbn [map fold_right].
    destruct (Z.ltb_spec 280000 (token_len enc t + 0)) as [Hbig|_]; [lia|].
    unfold bind. now rewrite (call_provider_fail _ _ _ H0).
  - unfold embed_with_retry. cbn [seq retry_loop].
    unfold try_except at 1. rewrite (call_provider_fail _ _ _ H0).
    unfold bind at 1, sleep, log_event.
    unfold try_except at 1. rewrite (call_provider_ok _ _ _ vs).
    2:{ rewrite provider_calls_add_other, provider_calls_add_embed by reflexivity.
        exact H1. }
    reflexivity.
Qed.

(** C3, at a concrete input: the provider fails once; the text "Alpha
    text." is not cached. *)
Lemma provider_failure_not_retried_witness :
  embed_loop (Fixture.externals (Fixture.failing_first 1)) Fixture.char_encoding
    (call_provider (Fixture.externals (Fixture.failing_first 1)))
    100 ∅ ["Alpha text."] (Fixture.world [] (Some "key") None ∅)
  = (Raise ProviderError,
     add_event (EvEmbed ["Alpha text."]) (Fixture.world [] (Some "key") None ∅)) /\
  embed_with_retry (Fixture.externals (Fixture.failing_first 1))
    ["Alpha text."] 3 (Fixture.world [] (Some "key") None ∅)
  = (Ok [[11 # 1]%Q],
     add_event (EvEmbed ["Alpha text."])
       (add_event (EvSleep 1)
          (add_event (EvEmbed ["Alpha text."])
             (Fixture.world [] (Some "key") None ∅)))).
Proof.
  apply (provider_failure_not_retried
           (Fixture.externals (Fixture.failing_first 1)) Fixture.char_encoding
           ∅ "Alpha text." (Fixture.world [] (Some "key") None ∅) [[11 # 1]%Q]).
  - reflexivity.
  - vm_compute. discriminate.
  - reflexivity.
  - reflexivity.
Defined.

(** ** Order of the embeddings *)

(** C1, on the batch loop of get_retriever (build_faiss_index has the same
    loop). A batch of two texts of which the first is not cached and the
    second is: the cached vector of the second text is appended while the
    batch is scanned, the fresh vector of the first text after the provider
    call. The index then holds, at position 0, the vector of the text
    stored at position 1, and conversely. *)
Theorem mixed_batch_misaligned
    (ext : Externals) (enc : Encoding) (c : gmap string vector)
    (t0 t1 : string) (m0 m1 : gmap string string) (v0 v1 : vector)
    (w : World) :
  c !! md5_hexdigest ext t0 = None ->
  c !! md5_hexdigest ext t1 = Some v1 ->
  (token_len enc t0 <= 280000)%Z ->
  embed_documents ext (provider_calls w) [t0] = Some [v0] ->
  length v0 = length v1 ->
  exists st w',
    embed_loop ext enc (call_provider ext) 100 c [t0; t1] w = (Ok st, w') /\
    embeddings st = [v1; v0] /\
    build_index (embeddings st) [(t0, m0); (t1, m1)] w'
    = (Ok (mkFaissDb [v1; v0] [mkDocument t0 m0; mkDocument t1 m1]), w').
Proof.
  intros Hmiss Hhit Htok Hemb Hdim.
  assert (Hloop :
    embed_loop ext enc (call_provider ext) 100 c [t0; t1] w
    = (Ok (mkEmbed (<[md5_hexdigest ext t0 := v0]> c) [v1; v0]
                   (<[md5_hexdigest ext t0 := v0]> ∅)),
       add_event (EvEmbed [t0]) w)).
  { unfold embed_loop. rewrite batches_single by (cbn; try congruence; lia).
    cbn [foldM]. rewrite process_batch_eq.
    unfold batch_misses, batch_hits, is_miss. cbn [List.filter flat_map cache app].
    rewrite Hmiss, Hhit. cbn [map fold_right].
    destruct (Z.ltb_spec 280000 (token_len enc t0 + 0)) as [Hbig|_]; [lia|].
    unfold bind. rewrite (call_provider_ok _ _ _ _ Hemb). reflexivity. }
  eexists _, _. split; [exact Hloop|]. split; [reflexivity|].
  cbn [embeddings]. unfold build_index. cbn [forallb].
  rewrite Nat.eqb_refl, Hdim, Nat.eqb_refl. reflexivity.
Qed.

(** C1, at a concrete input: "Bravo text." is cached with the vector [7],
    "Alpha text." is not and the provider answers [11] for it. *)
Lemma mixed_batch_misaligned_witness :
  exists st w',
    embed_loop (Fixture.externals Fixture.steady) Fixture.char_encoding
      (call_provider (Fixture.externals Fixture.steady)) 100
      {[ "Bravo text." := [7 # 1]%Q ]} ["Alpha text."; "Bravo text."]
      (Fixture.world [] (Some "key") None ∅) = (Ok st, w') /\
    embeddings st = [[7 # 1]%Q; [11 # 1]%Q] /\
    build_index (embeddings st) [("Alpha text.", ∅); ("Bravo text.", ∅)] w'
    = (Ok (mkFaissDb [[7 # 1]%Q; [11 # 1]%Q]
             [mkDocument "Alpha text." ∅; mkDocument "Bravo text." ∅]), w').
Proof.
  apply (mixed_batch_misaligned
           (Fixture.externals Fixture.steady) Fixture.char_encoding
           {[ "Bravo text." := [7 # 1]%Q ]} "Alpha text." "Bravo text."
           ∅ ∅ [11 # 1]%Q [7 # 1]%Q (Fixture.world [] (Some "key") None ∅)).
  - reflexivity.
  - reflexivity.
  - vm_compute. discriminate.
  - reflexivity.
  - reflexivity.
Defined.

(** ** Invariants of the monadic loops *)

Lemma foldM_world_inv {A B} (f : A -> B -> M A) (I : World -> Prop) :
  (forall a b w, I w -> I (snd (f a b w))) ->
  forall l a w, I w -> I (snd (foldM f l a w)).
Proof.
  intros Hf l. induction l as [|b l IH]; intros a w Hw; cbn.
  - exact Hw.
  - unfold bind. specialize (Hf a b w Hw).
    destruct (f a b w) as [[a'|e] w']; cbn in *; auto.
Qed.

Lemma foldM_state_inv {A B} (f : A -> B -> M A) (I : A -> Prop) :
  (forall a b w a' w', I a -> f a b w = (Ok a', w') -> I a') ->
  forall l a w a' w', I a -> foldM f l a w = (Ok a', w') -> I a'.
Proof.
  intros Hf l. induction l as [|b l IH]; intros a w a' w' Ha; cbn.
  - unfold ret. intros [= <- <-]. exact Ha.
  - unfold bind. destruct (f a b w) as [[a1|e] w1] eqn:E; [|discriminate].
    intros H. eapply IH; [|exact H]. eapply Hf; eauto.
Qed.

(** ** When the cache file is written *)

Lemma call_provider_leaves_cache_file (ext : Externals) :
  leaves_cache_file (call_provider ext).
Proof.
  intros ts w. rewrite call_provider_world. split; [reflexivity|].
  now apply cache_writes_add_other.
Qed.

Lemma retry_loop_leaves_cache_file (ext : Externals) (attempts : list nat)
    (ts : list string) (w : World) :
  cache_file (snd (retry_loop ext attempts ts w)) = cache_file w /\
  cache_writes (snd (retry_loop ext attempts ts w)) = cache_writes w.
Proof.
  revert w. induction attempts as [|n attempts IH]; intros w; cbn.
  - auto.
  - unfold try_except.
    pose proof (call_provider_leaves_cache_file ext ts w) as [H1 H2].
    destruct (call_provider ext ts w) as [[vs|e] w1]; cbn in *; [auto|].
    unfold bind, sleep, log_event.
    destruct (IH (add_event (EvSleep (2 ^ Z.of_nat n)) w1)) as [H3 H4].
    rewrite H3, H4. rewrite cache_writes_add_other by reflexivity. auto.
Qed.

Lemma embed_with_retry_leaves_cache_file (ext : Externals) (n : nat) :
  leaves_cache_file (fun ts => embed_with_retry ext ts n).
Proof. intros ts w. apply retry_loop_leaves_cache_file. Qed.

Section LoopAndFile.
Variable ext : Externals.
Variable enc : Encoding.
Variable embed_call : list string -> M (list vector).

Lemma process_batch_leaves_cache_file (w0 : World) st batch w :
  leaves_cache_file embed_call ->
  cache_file w = cache_file w0 /\ cache_writes w = cache_writes w0 ->
  cache_file (snd (process_batch ext enc embed_call st batch w))
  = cache_file w0 /\
  cache_writes (snd (process_batch ext enc embed_call st batch w))
  = cache_writes w0.
Proof.
  intros Hcall [Hf Hn]. rewrite process_batch_eq. cbv zeta.
  destruct (batch_misses ext (cache st) batch) as [|t ts]; [now cbn|].
  set (misses := t :: ts).
  destruct (280000 <? _)%Z; unfold bind.
  - pose proof (Hcall (firstn (length misses / 2) misses) w) as [A1 A2].
    destruct (embed_call (firstn _ _) w) as [[a|e] w1]; cbn in *;
      [|split; congruence].
    pose proof (Hcall (skipn (length misses / 2) misses) w1) as [B1 B2].
    destruct (embed_call (skipn _ _) w1) as [[b|e] w2]; cbn in *;
      split; congruence.
  - pose proof (Hcall misses w) as [A1 A2].
    destruct (embed_call misses w) as [[a|e] w1]; cbn in *;
      split; congruence.
Qed.

(** The batch loop never touches the cache file. *)
Lemma embed_loop_leaves_cache_file size c texts w :
  leaves_cache_file embed_call ->
  cache_file (snd (embed_loop ext enc embed_call size c texts w))
  = cache_file w /\
  cache_writes (snd (embed_loop ext enc embed_call size c texts w))
  = cache_writes w.
Proof.
  intros Hcall. unfold embed_loop.
  apply (foldM_world_inv (process_batch ext enc embed_call)
           (fun w' => cache_file w' = cache_file w /\
                      cache_writes w' = cache_writes w)); [|auto].
  intros a b w1 H1. now apply process_batch_leaves_cache_file.
Qed.

Lemma store_new_union (c0 : gmap string vector) pairs
    (c n : gmap string vector) :
  c = n ∪ c0 ->
  fst (fold_left store_new pairs (c, n))
  = snd (fold_left store_new pairs (c, n)) ∪ c0.
Proof.
  revert c n. induction pairs as [|[h v] pairs IH]; intros c n Hc; cbn.
  - exact Hc.
  - apply IH. rewrite Hc. apply insert_union_l.
Qed.

Lemma process_batch_cache_union (c0 : gmap string vector) st batch w st' w' :
  cache st = new_cache_entries st ∪ c0 ->
  process_batch ext enc embed_call st batch w = (Ok st', w') ->
  cache st' = new_cache_entries st' ∪ c0.
Proof.
  intros Hinv. rewrite process_batch_eq. cbv zeta.
  destruct (batch_misses ext (cache st) batch) as [|t ts].
  - unfold ret. intros [= <- <-]. exact Hinv.
  - match goal with
    | |- context [bind (if ?b then ?x else ?y) _] =>
        set (call := if b then x else y)
    end.
    unfold bind at 1.
    destruct (call w) as [[embs|e] w1]; [|discriminate].
    unfold ret. intros [= <- <-]. cbn [cache new_cache_entries].
    now apply store_new_union.
Qed.

(** In the loop the cache is the cache read at start plus the entries
    added since, so every new entry is in the cache that gets written. *)
Lemma embed_loop_cache_union size c texts w st w' :
  embed_loop ext enc embed_call size c texts w = (Ok st, w') ->
  cache st = new_cache_entries st ∪ c.
Proof.
  unfold embed_loop.
  apply (foldM_state_inv (process_batch ext enc embed_call)
           (fun st => cache st = new_cache_entries st ∪ c)).
  - intros a b w1 a' w1' Ha H. eapply process_batch_cache_union; eauto.
  - cbn. now rewrite map_empty_union.
Qed.

End LoopAndFile.

(** C7, as the code has it. The batch loop never writes the cache file,
    whichever batches add entries; after the whole loop the cache, which
    contains every new entry, is written exactly once when some batch
    added an entry, and the file is left alone otherwise. *)
Theorem cache_written_once_after_loop
    (ext : Externals) (enc : Encoding)
    (embed_call : list string -> M (list vector))
    (size : nat) (c : gmap string vector) (texts : list string) (w : World) :
  leaves_cache_file embed_call ->
  let r := embed_loop ext enc embed_call size c texts w in
  cache_file (snd r) = cache_file w /\
  cache_writes (snd r) = cache_writes w /\
  forall st, fst r = Ok st ->
    let w2 := snd (persist_cache st (snd r)) in
    (forall h v, new_cache_entries st !! h = Some v -> cache st !! h = Some v) /\
    (dom (new_cache_entries st) <> ∅ ->
       cache_file w2 = Some (cache st) /\ cache_writes w2 = S (cache_writes w)) /\
    (dom (new_cache_entries st) = ∅ -> w2 = snd r).
Proof.
  intros Hcall r.
  destruct (embed_loop_leaves_cache_file ext enc embed_call size c texts w Hcall)
    as [Hf Hn].
  fold r in Hf, Hn. split; [exact Hf|]. split; [exact Hn|].
  intros st Hst w2. subst w2. split; [|split].
  - intros h v Hh.
    rewrite (embed_loop_cache_union ext enc embed_call size c texts w st (snd r)).
    + now apply lookup_union_Some_l.
    + destruct r as [r1 r2] eqn:E. cbn in Hst. subst r1. exact E.
  - intros Hne. unfold persist_cache.
    rewrite bool_decide_eq_false_2 by exact Hne. cbn.
    split; [reflexivity|].
    unfold cache_writes in *. cbn. rewrite List.filter_app, length_app. cbn.
    rewrite <- Hn. lia.
  - intros He. unfold persist_cache.
    rewrite bool_decide_eq_true_2 by exact He. reflexivity.
Qed.

(** C7, at a concrete input: one text to embed, no cache file yet. *)
Lemma cache_written_once_after_loop_witness :
  let r := embed_loop (Fixture.externals Fixture.steady) Fixture.char_encoding
             (call_provider (Fixture.externals Fixture.steady)) 100 ∅
             ["Alpha text."] (Fixture.world [] (Some "key") None ∅) in
  cache_file (snd r) = None /\ cache_writes (snd r) = 0.
Proof.
  intros r.
  pose proof (cache_written_once_after_loop
                (Fixture.externals Fixture.steady) Fixture.char_encoding
                (call_provider (Fixture.externals Fixture.steady)) 100 ∅
                ["Alpha text."] (Fixture.world [] (Some "key") None ∅)
                (call_provider_leaves_cache_file _)) as (H1 & H2 & _).
  split; [exact H1 | exact H2].
Defined.

(** C7, as the data model words it, fails: after the batch ["Alpha text."]
    has been processed its new entry is in the cache in memory, and there
    is still no cache file. *)
Lemma persisted_per_batch_counterexample : ~ persisted_per_batch_claim.
Proof.
  intros H.
  assert (E : process_batch (Fixture.externals Fixture.steady)
                Fixture.char_encoding
                (call_provider (Fixture.externals Fixture.steady))
                (mkEmbed ∅ [] ∅) ["Alpha text."]
                (Fixture.world [] (Some "key") None ∅)
              = (Ok (mkEmbed {[ "Alpha text." := [11 # 1]%Q ]} [[11 # 1]%Q]
                             {[ "Alpha text." := [11 # 1]%Q ]}),
                 add_event (EvEmbed ["Alpha text."])
                           (Fixture.world [] (Some "key") None ∅))).
  { vm_compute. reflexivity. }
  destruct (H _ _ _ _ _ _ _ E "Alpha text." [11 # 1]%Q) as (c & Hc & _).
  - reflexivity.
  - vm_compute. reflexivity.
  - discriminate Hc.
Qed.

(** ** Loading reads the world and leaves it as it is *)

Lemma load_file_world folder all_docs filename w :
  snd (load_file folder all_docs filename w) = w.
Proof.
  unfold load_file. destruct (json_files w _); [|reflexivity].
  now destruct (truthy _).
Qed.

Lemma load_documents_world folder limit w :
  snd (load_documents folder limit w) = w.
Proof.
  unfold load_documents, bind. destruct (listdir w folder); [|reflexivity].
  apply (foldM_world_inv (load_file folder) (fun w' => w' = w)); [|reflexivity].
  intros a b w1 ->. apply load_file_world.
Qed.

Lemma foldM_load_file_inputs folder files :
  forall acc w w', json_files w' = json_files w ->
    fst (foldM (load_file folder) files acc w')
    = fst (foldM (load_file folder) files acc w).
Proof.
  induction files as [|f files IH]; intros acc w w' Hj; cbn; [reflexivity|].
  unfold bind.
  pose proof (load_file_world folder acc f w) as Hw.
  pose proof (load_file_world folder acc f w') as Hw'.
  assert (Hf : fst (load_file folder acc f w') = fst (load_file folder acc f w)).
  { unfold load_file. rewrite Hj. destruct (json_files w _); [|reflexivity].
    now destruct (truthy _). }
  destruct (load_file folder acc f w) as [r1 w1],
           (load_file folder acc f w') as [r2 w2]. cbn in *. subst.
  destruct r1; [|reflexivity]. now apply IH.
Qed.

(** The documents loaded depend only on the record files. *)
Lemma load_documents_inputs folder limit w w' :
  same_inputs w w' ->
  fst (load_documents folder limit w') = fst (load_documents folder limit w).
Proof.
  intros (Hl & Hj & _). unfold load_documents, bind. rewrite Hl.
  destruct (listdir w folder); [|reflexivity].
  now apply foldM_load_file_inputs.
Qed.

Lemma same_inputs_refl w : same_inputs w w.
Proof. now repeat split. Qed.

Lemma same_inputs_trans w1 w2 w3 :
  same_inputs w1 w2 -> same_inputs w2 w3 -> same_inputs w1 w3.
Proof. unfold same_inputs. intuition congruence. Qed.

Lemma call_provider_inputs ext ts w : same_inputs w (snd (call_provider ext ts w)).
Proof. rewrite call_provider_world. now repeat split. Qed.

Lemma process_batch_inputs ext enc st batch w :
  same_inputs w (snd (process_batch ext enc (call_provider ext) st batch w)).
Proof.
  rewrite process_batch_eq. cbv zeta.
  destruct (batch_misses ext (cache st) batch) as [|t ts];
    [apply same_inputs_refl|].
  set (misses := t :: ts).
  destruct (280000 <? _)%Z; unfold bind.
  - pose proof (call_provider_inputs ext (firstn (length misses / 2) misses) w) as A.
    destruct (call_provider ext (firstn _ _) w) as [[a|e] w1]; cbn in *; [|exact A].
    pose proof (call_provider_inputs ext (skipn (length misses / 2) misses) w1) as B.
    destruct (call_provider ext (skipn _ _) w1) as [[b|e] w2]; cbn in *;
      eapply same_inputs_trans; eauto.
  - pose proof (call_provider_inputs ext misses w) as A.
    destruct (call_provider ext misses w) as [[a|e] w1]; cbn in *; exact A.
Qed.

Lemma embed_loop_inputs ext enc size c texts w :
  same_inputs w (snd (embed_loop ext enc (call_provider ext) size c texts w)).
Proof.
  unfold embed_loop.
  apply (foldM_world_inv (process_batch ext enc (call_provider ext))
           (fun w' => same_inputs w w')); [|apply same_inputs_refl].
  intros a b w1 H1. eapply same_inputs_trans; [exact H1|].
  apply process_batch_inputs.
Qed.

Lemma persist_cache_inputs st w : same_inputs w (snd (persist_cache st w)).
Proof.
  unfold persist_cache. destruct (bool_decide _); now repeat split.
Qed.

(** ** Batches *)

Lemma batches_In_inv (size : nat) (texts b : list string) (t : string) :
  In b (batches size texts) -> In t b -> In t texts.
Proof.
  unfold batches. intros Hb Ht.
  apply in_map_iff in Hb as (i & <- & _).
  apply In_nth_error in Ht as [n Hn].
  rewrite nth_error_firstn in Hn.
  destruct (Nat.ltb n size); [|discriminate].
  rewrite nth_error_skipn in Hn. eapply nth_error_In; eauto.
Qed.

(** With a positive batch size every text is in some batch. *)
Lemma batches_In (size : nat) (texts : list string) (t : string) :
  0 < size -> In t texts ->
  exists b, In b (batches size texts) /\ In t b.
Proof.
  intros Hs Ht. apply In_nth_error in Ht as [i Hi].
  assert (Hlt : i < length texts) by (apply nth_error_Some; congruence).
  assert (Hmod : i mod size < size) by (apply Nat.mod_upper_bound; lia).
  pose proof (Nat.div_mod_eq i size) as Hdm.
  exists (firstn size (skipn (i / size * size) texts)). split.
  - unfold batches, range_step. apply in_map_iff.
    exists (i / size * size). split; [reflexivity|].
    apply in_map_iff. exists (i / size). split; [reflexivity|].
    apply in_seq. split; [lia|]. cbn.
    replace (length texts + size - 1) with ((length texts - 1) + 1 * size) by lia.
    rewrite Nat.div_add by lia.
    assert (i / size <= (length texts - 1) / size)
      by (apply Nat.Div0.div_le_mono; lia).
    lia.
  - apply (nth_error_In _ (i - i / size * size)).
    rewrite nth_error_firstn.
    replace (Nat.ltb (i - i / size * size) size) with true
      by (symmetry; apply Nat.ltb_lt; lia).
    rewrite nth_error_skipn.
    replace (i / size * size + (i - i / size * size)) with i by lia.
    exact Hi.
Qed.

(** ** What a run leaves in the cache *)

Lemma store_new_mono pairs (c n : gmap string vector) (h : string) :
  is_Some (c !! h) ->
  is_Some (fst (fold_left store_new pairs (c, n)) !! h).
Proof.
  revert c n. induction pairs as [|[h' v] pairs IH]; intros c n Hc; cbn.
  - exact Hc.
  - apply IH. destruct (decide (h' = h)) as [->|Hne].
    + rewrite lookup_insert_eq. eauto.
    + now rewrite lookup_insert_ne.
Qed.

Lemma store_new_lookup pairs (c n : gmap string vector) (h : string) :
  In h (map fst pairs) ->
  is_Some (fst (fold_left store_new pairs (c, n)) !! h).
Proof.
  revert c n. induction pairs as [|[h' v] pairs IH]; intros c n Hin; cbn.
  - destruct Hin.
  - destruct Hin as [Heq|Hin]; [|now apply IH].
    cbn in Heq. subst h'. apply store_new_mono.
    rewrite lookup_insert_eq. eauto.
Qed.

Lemma map_fst_combine {A B} (l : list A) (k : list B) :
  length l = length k -> map fst (combine l k) = l.
Proof.
  revert k. induction l as [|a l IH]; intros [|b k] Hlen; cbn in *;
    try discriminate; [reflexivity|].
  f_equal. apply IH. lia.
Qed.

Lemma call_provider_length ext ts w vs w' :
  provider_contract ext ->
  call_provider ext ts w = (Ok vs, w') -> length vs = length ts.
Proof.
  intros Hc. unfold call_provider.
  destruct (embed_documents ext (provider_calls w) ts) as [vs'|] eqn:E;
    [|discriminate].
  intros [= <- _]. eapply Hc; eauto.
Qed.

Lemma is_miss_false ext c t :
  is_miss ext c t = false <-> is_Some (c !! md5_hexdigest ext t).
Proof.
  unfold is_miss. destruct (c !! md5_hexdigest ext t); split; intros H;
    eauto; try discriminate. now destruct H.
Qed.

Section Coverage.
Variable ext : Externals.
Variable enc : Encoding.
Hypothesis contract : provider_contract ext.

Lemma process_batch_covers st batch w st' w' :
  process_batch ext enc (call_provider ext) st batch w = (Ok st', w') ->
  (forall h, is_Some (cache st !! h) -> is_Some (cache st' !! h)) /\
  all_cached ext (cache st') batch.
Proof.
  rewrite process_batch_eq. cbv zeta.
  destruct (batch_misses ext (cache st) batch) as [|t0 ts] eqn:Em.
  - unfold ret. intros [= <- <-]. cbn. split; [auto|].
    intros t Ht. apply is_miss_false.
    destruct (is_miss ext (cache st) t) eqn:E; [|reflexivity].
    assert (Hin : In t (batch_misses ext (cache st) batch))
      by (apply filter_In; auto).
    rewrite Em in Hin. destruct Hin.
  - rewrite <- Em. set (misses := batch_misses ext (cache st) batch) in *.
    match goal with
    | |- context [bind (if ?b then ?x else ?y) _] =>
        set (call := if b then x else y)
    end.
    unfold bind at 1.
    destruct (call w) as [[embs|e] w1] eqn:Ecall; [|discriminate].
    assert (Hlen : length embs = length misses).
    { subst call. destruct (280000 <? _)%Z.
      - unfold bind in Ecall.
        destruct (call_provider ext (firstn _ _) w) as [[a|e] wa] eqn:Ea;
          [|discriminate].
        destruct (call_provider ext (skipn _ _) wa) as [[b|e] wb] eqn:Eb;
          [|discriminate].
        injection Ecall as <- _.
        apply call_provider_length in Ea, Eb; try exact contract.
        rewrite length_app, Ea, Eb, <- length_app, firstn_skipn.
        reflexivity.
      - eapply call_provider_length; eauto. }
    destruct misses as [|m ms] eqn:Emisses; [discriminate|].
    rewrite <- Emisses in *. clear Emisses.
    unfold ret. intros [= <- <-]. cbn [cache]. split.
    + intros h Hh. now apply store_new_mono.
    + intros t Ht. destruct (is_miss ext (cache st) t) eqn:E.
      * apply store_new_lookup. rewrite map_fst_combine
          by (rewrite length_map; lia).
        apply in_map. apply filter_In. auto.
      * apply store_new_mono. now apply is_miss_false.
Qed.

Lemma foldM_batches_cover bs :
  forall st w st' w',
    foldM (process_batch ext enc (call_provider ext)) bs st w = (Ok st', w') ->
    (forall h, is_Some (cache st !! h) -> is_Some (cache st' !! h)) /\
    (forall b, In b bs -> all_cached ext (cache st') b).
Proof.
  induction bs as [|b bs IH]; intros st w st' w'; cbn.
  - unfold ret. intros [= <- <-]. split; [auto|]. intros b [].
  - unfold bind.
    destruct (process_batch ext enc (call_provider ext) st b w)
      as [[st1|e] w1] eqn:E1; [|discriminate].
    intros E2. apply process_batch_covers in E1 as [M1 C1].
    apply IH in E2 as [M2 C2]. split; [auto|].
    intros b' [<-|Hb']; [|auto].
    intros t Ht. apply M2. now apply C1.
Qed.

(** After a run of the loop that returns, every text of the run has its
    digest in the cache. *)
Lemma embed_loop_covers size c texts w st w' :
  0 < size ->
  embed_loop ext enc (call_provider ext) size c texts w = (Ok st, w') ->
  all_cached ext (cache st) texts.
Proof.
  intros Hs H t Ht.
  apply foldM_batches_cover in H as [_ C].
  destruct (batches_In size texts t Hs Ht) as (b & Hb & Htb).
  exact (C b Hb t Htb).
Qed.

End Coverage.

(** ** A run on texts that are all cached *)

Section FullHit.
Variable ext : Externals.
Variable enc : Encoding.
Variable embed_call : list string -> M (list vector).

Lemma batch_misses_nil c batch :
  all_cached ext c batch -> batch_misses ext c batch = [].
Proof.
  intros H. unfold batch_misses.
  induction batch as [|t batch IH]; cbn; [reflexivity|].
  rewrite (proj2 (is_miss_false ext c t)) by (apply H; now left).
  apply IH. intros t' Ht'. apply H. now right.
Qed.

(** A batch whose texts are all cached is resolved without calling the
    provider and without touching the world. *)
Lemma process_batch_full_hit st batch w :
  all_cached ext (cache st) batch ->
  process_batch ext enc embed_call st batch w
  = (Ok (mkEmbed (cache st)
                 (embeddings st ++ batch_hits ext (cache st) batch)
                 (new_cache_entries st)), w).
Proof.
  intros H. rewrite process_batch_eq. cbv zeta.
  now rewrite (batch_misses_nil _ _ H).
Qed.

Lemma foldM_full_hit c bs :
  forall st w,
    cache st = c -> new_cache_entries st = ∅ ->
    (forall b, In b bs -> all_cached ext c b) ->
    exists st', foldM (process_batch ext enc embed_call) bs st w = (Ok st', w) /\
                cache st' = c /\ new_cache_entries st' = ∅.
Proof.
  induction bs as [|b bs IH]; intros st w Hc Hn Hall; cbn.
  - exists st. auto.
  - unfold bind. rewrite process_batch_full_hit
      by (rewrite Hc; apply Hall; now left).
    apply IH; cbn; auto. intros b' Hb'. apply Hall. now right.
Qed.

Lemma embed_loop_full_hit size c texts w :
  all_cached ext c texts ->
  exists st, embed_loop ext enc embed_call size c texts w = (Ok st, w) /\
             cache st = c /\ new_cache_entries st = ∅.
Proof.
  intros H. unfold embed_loop. apply foldM_full_hit; cbn; auto.
  intros b Hb t Ht. apply H. eapply batches_In_inv; eauto.
Qed.

End FullHit.

(** ** get_retriever, step by step *)

Lemma build_index_world embs pairs w : snd (build_index embs pairs w) = w.
Proof.
  unfold build_index. destruct embs as [|e0 embs]; [reflexivity|].
  now destruct (forallb _ _).
Qed.

Lemma embed_and_index_eq ext c chunks idx w :
  embed_and_index ext c chunks idx w
  = let enc := encoding_for_model ext small_model in
    let pairs := filtered_pairs enc 2 (unique_pairs chunks) in
    match map fst (unique_pairs chunks) with
    | [] => (Raise (ValueError "No texts for embedding."), w)
    | _ =>
        match map fst pairs with
        | [] => (Raise (ValueError "All texts filtered out."), w)
        | _ =>
            match embed_loop ext enc (call_provider ext) 100 c
                             (map fst pairs) w with
            | (Raise e, w1) => (Raise e, w1)
            | (Ok st, w1) =>
                let w2 := snd (persist_cache st w1) in
                match fst (build_index (embeddings st) pairs w2) with
                | Raise e => (Raise e, w2)
                | Ok db => (Ok db, save_index idx db w2)
                end
            end
        end
    end.
Proof.
  unfold embed_and_index. cbv zeta.
  destruct (map fst (unique_pairs chunks)); [reflexivity|].
  destruct (map fst (filtered_pairs _ 2 (unique_pairs chunks))) eqn:Et;
    [reflexivity|].
  rewrite <- Et. unfold bind at 1.
  destruct (embed_loop _ _ _ _ _ _ _) as [[st|e] w1]; [|reflexivity].
  unfold bind at 1.
  assert (Hp : fst (persist_cache st w1) = Ok tt)
    by (unfold persist_cache; now destruct (bool_decide _)).
  destruct (persist_cache st w1) as [r w2]. cbn in Hp. subst r. cbn [snd].
  unfold bind at 1.
  pose proof (build_index_world (embeddings st)
                (filtered_pairs (encoding_for_model ext small_model) 2
                                (unique_pairs chunks)) w2) as Hw.
  destruct (build_index _ _ w2) as [[db|e] w3]; cbn in Hw; subst w3;
    reflexivity.
Qed.

Lemma get_retriever_eq ext path idx reuse k limit w :
  get_retriever ext path idx reuse k limit w
  = match fst (load_documents path limit w) with
    | Raise e => (Raise e, w)
    | Ok [] => (Raise (ValueError "No documents found."), w)
    | Ok docs =>
        let chunks :=
          Chunker.semantic_token_chunk_documents ext 300 50 small_model docs in
        match chunks with
        | [] => (Raise (ValueError "No chunks created."), w)
        | _ =>
            if negb (truthy (default EmptyString (api_key w)))
            then (Raise (ValueError "OPENAI_API_KEY is not set."), w)
            else
              match (if reuse then index_dirs w !! idx else None) with
              | Some db =>
                  (Ok (mkEnsemble
                         [BM25Retriever chunks;
                          VectorStoreRetriever db "similarity" k]
                         [1 # 2; 1 # 2]%Q), w)
              | None =>
                  match embed_and_index ext (default ∅ (cache_file w))
                                        chunks idx w with
                  | (Ok db, w') =>
                      (Ok (mkEnsemble
                             [BM25Retriever chunks;
                              VectorStoreRetriever db "similarity" k]
                             [1 # 2; 1 # 2]%Q), w')
                  | (Raise e, w') => (Raise e, w')
                  end
              end
        end
    end.
Proof.
  unfold get_retriever. unfold bind at 1.
  pose proof (load_documents_world path limit w) as Hw.
  destruct (load_documents path limit w) as [[docs|e] w0]; cbn in Hw; subst w0;
    [|reflexivity].
  cbn [fst]. destruct docs as [|d docs]; [reflexivity|].
  cbv zeta.
  destruct (Chunker.semantic_token_chunk_documents _ _ _ _ _) as [|ch chs];
    [reflexivity|].
  unfold bind at 1.
  destruct (negb _); [reflexivity|].
  unfold bind at 1, load_cache. unfold bind at 1.
  destruct (if reuse then index_dirs w !! idx else None); [reflexivity|].
  destruct (embed_and_index _ _ _ _ _) as [[db|e] w']; reflexivity.
Qed.

Lemma provider_calls_save_index idx db w :
  provider_calls (save_index idx db w) = provider_calls w.
Proof.
  unfold save_index, provider_calls, add_event. cbn.
  rewrite List.filter_app, length_app. cbn. lia.
Qed.

Lemma cache_writes_save_index idx db w :
  cache_writes (save_index idx db w) = cache_writes w.
Proof.
  unfold save_index, cache_writes, add_event. cbn.
  rewrite List.filter_app, length_app. cbn. lia.
Qed.

(** After an embedding run that returned, the cache file holds the cache
    the loop ended with. *)
Lemma persisted_cache_is_loop_cache ext enc size texts w st w1 :
  embed_loop ext enc (call_provider ext) size (default ∅ (cache_file w)) texts w
  = (Ok st, w1) ->
  default ∅ (cache_file (snd (persist_cache st w1))) = cache st.
Proof.
  intros H. unfold persist_cache.
  destruct (bool_decide _) eqn:Eb.
  - apply bool_decide_eq_true_1 in Eb. apply dom_empty_iff_L in Eb.
    pose proof (embed_loop_leaves_cache_file ext enc (call_provider ext) size
                  (default ∅ (cache_file w)) texts w
                  (call_provider_leaves_cache_file ext)) as [Hf _].
    rewrite H in Hf. cbn in *. rewrite Hf.
    rewrite (embed_loop_cache_union _ _ _ _ _ _ _ _ _ H), Eb.
    now rewrite map_empty_union.
  - reflexivity.
Qed.

(** ** Running the embedding step twice *)


Lemma steady_contract :
  provider_contract (Fixture.externals Fixture.steady).
Proof.
  intros n ts vs. cbn. unfold Fixture.steady. intros [= <-].
  apply length_map.
Qed.


(** ** Reusing a saved index *)



(** ** What load_documents returns *)

(** Without a limit the files visited are the names of the directory that
    end in ".json". *)
Lemma select_files_all (names : list string) (f : string) :
  In f (select_files names None) <->
  In f names /\ endswith f ".json" = true.
Proof.
  unfold select_files, sorted.
  rewrite <- (filter_In (fun f => endswith f ".json") f names).
  split; apply Permutation_in.
  - apply merge_sort_Permutation.
  - symmetry. apply merge_sort_Permutation.
Qed.

Lemma foldM_load_file_readable (w : World) (folder : string) files :
  forall acc,
    (forall f, In f files -> is_Some (json_files w (path_join folder f))) ->
    foldM (load_file folder) files acc w
    = (Ok (acc ++ map document_of
                      (List.filter has_content (read_records w folder files))),
       w).
Proof.
  induction files as [|f files IH]; intros acc Hread; cbn.
  - now rewrite app_nil_r.
  - unfold bind, load_file at 1.
    destruct (Hread f (or_introl eq_refl)) as [data Hdata]. rewrite Hdata.
    cbn [app]. unfold has_content at 1. cbn [snd List.filter].
    destruct (truthy (full_text_of data)) eqn:Et.
    + rewrite IH by (intros f' Hf'; apply Hread; now right).
      cbn. now rewrite <- app_assoc.
    + rewrite IH by (intros f' Hf'; apply Hread; now right). reflexivity.
Qed.

(** The content of a Document: the stripped page texts that are not blank,
    joined by newlines. *)
Lemma full_text_of_pages (data : RecordFile) :
  full_text_of data
  = str_join newline (List.filter truthy (stripped_pages data)).
Proof.
  unfold full_text_of, stripped_pages. f_equal.
  induction (default [] (pdf_data data)) as [|p ps IH]; cbn; [reflexivity|].
  destruct (truthy (strip (get_default p "text"))); cbn; now rewrite IH.
Qed.

(** Each fixed field holds the value of the record, or the empty string
    when the record has no such field. *)
Lemma metadata_of_field (data : RecordFile) (filename tk sk : string) :
  In (tk, sk) field_table ->
  metadata_of data filename !! tk
  = Some (default EmptyString (default ∅ (csv_metadata data) !! sk)).
Proof.
  unfold field_table, metadata_of, get_default. cbn [In].
  intros H. repeat (destruct H as [H|H]; [injection H as <- <-|]);
    try contradiction;
    repeat (rewrite lookup_insert_ne by discriminate);
    apply lookup_insert_eq.
Qed.

Lemma metadata_of_source (data : RecordFile) (filename : string) :
  metadata_of data filename !! "source" = Some filename.
Proof.
  unfold metadata_of.
  repeat (rewrite lookup_insert_ne by discriminate). apply lookup_insert_eq.
Qed.

(** ** Exceptions *)

Lemma foldM_load_file_raises folder files :
  forall acc w e w',
    foldM (load_file folder) files acc w = (Raise e, w') -> e = ReadError.
Proof.
  induction files as [|f files IH]; intros acc w e w'; cbn.
  - discriminate.
  - unfold bind, load_file at 1.
    destruct (json_files w (path_join folder f)) as [data|];
      [|now intros [= <- _]].
    destruct (truthy _); apply IH.
Qed.

Lemma load_documents_raises folder limit w e :
  fst (load_documents folder limit w) = Raise e -> e = ReadError.
Proof.
  unfold load_documents, bind.
  destruct (listdir w folder) as [names|]; [|now intros [= <-]].
  destruct (foldM _ _ _ _) as [r w'] eqn:E. cbn. intros ->.
  eapply foldM_load_file_raises; eauto.
Qed.

Lemma process_batch_raises ext enc st batch w e w' :
  process_batch ext enc (call_provider ext) st batch w = (Raise e, w') ->
  e = ProviderError.
Proof.
  rewrite process_batch_eq. cbv zeta.
  destruct (batch_misses ext (cache st) batch) as [|t ts]; [discriminate|].
  set (misses := t :: ts).
  assert (Hcall : forall ts0 w0 e0 w0',
            call_provider ext ts0 w0 = (Raise e0, w0') -> e0 = ProviderError).
  { intros ts0 w0 e0 w0'. unfold call_provider.
    destruct (embed_documents _ _ _); [discriminate|]. now intros [= <- _]. }
  destruct (280000 <? _)%Z; unfold bind, ret.
  - destruct (call_provider ext (firstn _ _) w) as [[a|e1] w1] eqn:E1.
    + destruct (call_provider ext (skipn _ _) w1) as [[b|e2] w2] eqn:E2;
        [discriminate|].
      intros [= <- _]. eapply Hcall; eauto.
    + intros [= <- _]. eapply Hcall; eauto.
  - destruct (call_provider ext misses w) as [[a|e1] w1] eqn:E1;
      [discriminate|].
    intros [= <- _]. eapply Hcall; eauto.
Qed.

Lemma embed_loop_raises ext enc size c texts w e w' :
  embed_loop ext enc (call_provider ext) size c texts w = (Raise e, w') ->
  e = ProviderError.
Proof.
  unfold embed_loop. generalize (mkEmbed c [] ∅). revert w.
  induction (batches size texts) as [|b bs IH]; intros w st; cbn.
  - discriminate.
  - unfold bind.
    destruct (process_batch _ _ _ st b w) as [[st1|e1] w1] eqn:E1.
    + apply IH.
    + intros [= <- _]. eapply process_batch_raises; eauto.
Qed.

Lemma embed_and_index_raises ext c chunks idx w e w' :
  embed_and_index ext c chunks idx w = (Raise e, w') ->
  e <> ValueError "No documents found.".
Proof.
  rewrite embed_and_index_eq. cbv zeta.
  destruct (map fst (unique_pairs chunks)); [intros [= <- _]; discriminate|].
  destruct (map fst (filtered_pairs _ 2 _)) eqn:Et;
    [intros [= <- _]; discriminate|].
  rewrite <- Et.
  destruct (embed_loop _ _ _ _ _ _ _) as [[st|e1] w1] eqn:El.
  - unfold build_index.
    destruct (embeddings st) as [|e0 es]; cbn.
    + intros [= <- _]. discriminate.
    + destruct (Nat.eqb _ _ && forallb _ _); cbn; [discriminate|].
      intros [= <- _]. discriminate.
  - intros [= <- _]. apply embed_loop_raises in El. subst e1. discriminate.
Qed.



(** X9. A selected file that cannot be read makes load_documents raise: it
    is not skipped. *)
Lemma load_documents_unreadable
    (w : World) (folder : string) (limit : option Z) (names : list string)
    (f : string) :
  listdir w folder = Some names ->
  In f (select_files names limit) ->
  json_files w (path_join folder f) = None ->
  fst (load_documents folder limit w) = Raise ReadError.
Proof.
  intros Hdir Hin Hnone. unfold load_documents, bind. rewrite Hdir.
  generalize (@nil Document).
  induction (select_files names limit) as [|g files IH]; intros acc;
    [destruct Hin|].
  cbn. unfold bind, load_file at 1.
  destruct (json_files w (path_join folder g)) as [data|] eqn:Eg.
  - destruct Hin as [->|Hin]; [congruence|].
    destruct (truthy _); now apply IH.
  - reflexivity.
Qed.

(** ** Identical documents *)

Section ChunkTexts.
Variable ext : Externals.
Variables max_tokens overlap_tokens : Z.
Variable model_name : string.
Variable m : gmap string string.

(** The sentence loop run with metadata [m] and with empty metadata keeps
    the same buffer and count and emits the same texts. *)
Lemma sentence_step_texts (st st0 : Chunker.LoopState) (s : string) :
  Chunker.buffer st = Chunker.buffer st0 ->
  Chunker.buffer_token_count st = Chunker.buffer_token_count st0 ->
  Chunker.emitted st
  = map (fun t => mkDocument t m) (map page_content (Chunker.emitted st0)) ->
  let st' := Chunker.sentence_step ext max_tokens overlap_tokens model_name
               m st s in
  let st0' := Chunker.sentence_step ext max_tokens overlap_tokens model_name
                ∅ st0 s in
  Chunker.buffer st' = Chunker.buffer st0' /\
  Chunker.buffer_token_count st' = Chunker.buffer_token_count st0' /\
  Chunker.emitted st'
  = map (fun t => mkDocument t m) (map page_content (Chunker.emitted st0')).
Proof.
  intros Hb Hc He. unfold Chunker.sentence_step. rewrite Hb, Hc, He.
  destruct (_ <=? _)%Z; cbn; [auto|].
  destruct (0 <? overlap_tokens)%Z; cbn;
    rewrite !map_app; cbn; auto.
Qed.

Lemma sentence_fold_texts (ss : list string) :
  forall st st0,
    Chunker.buffer st = Chunker.buffer st0 ->
    Chunker.buffer_token_count st = Chunker.buffer_token_count st0 ->
    Chunker.emitted st
    = map (fun t => mkDocument t m) (map page_content (Chunker.emitted st0)) ->
    let st' := fold_left (Chunker.sentence_step ext max_tokens overlap_tokens
                            model_name m) ss st in
    let st0' := fold_left (Chunker.sentence_step ext max_tokens overlap_tokens
                             model_name ∅) ss st0 in
    Chunker.buffer st' = Chunker.buffer st0' /\
    Chunker.emitted st'
    = map (fun t => mkDocument t m) (map page_content (Chunker.emitted st0')).
Proof.
  induction ss as [|s ss IH]; intros st st0 Hb Hc He; cbn.
  - auto.
  - destruct (sentence_step_texts st st0 s Hb Hc He) as (Hb' & Hc' & He').
    now apply IH.
Qed.

(** The chunks of a document are its chunk texts, each with the metadata
    of the document. *)
Lemma chunk_document_copies (content : string) :
  Chunker.chunk_document ext max_tokens overlap_tokens model_name
                         (mkDocument content m)
  = map (fun t => mkDocument t m)
        (chunk_texts ext max_tokens overlap_tokens model_name content).
Proof.
  unfold chunk_texts, Chunker.chunk_document. cbn [page_content metadata].
  destruct (sentence_fold_texts (sent_tokenize ext content)
              (Chunker.mkLoop [] [] 0) (Chunker.mkLoop [] [] 0)
              eq_refl eq_refl eq_refl) as [Hb He].
  cbv zeta in Hb, He. rewrite Hb, He.
  set (st0 := fold_left (Chunker.sentence_step ext max_tokens overlap_tokens
                           model_name ∅) (sent_tokenize ext content)
                        (Chunker.mkLoop [] [] 0)).
  destruct (Chunker.buffer st0) as [|b bs]; [reflexivity|].
  rewrite !map_app. reflexivity.
Qed.

End ChunkTexts.




(** ** The defects seen from get_retriever *)

(** C1 on a whole run: two record files, the text of the second one
    already in the cache file with the vector [7]. The saved store pairs
    "First record here." with [7] and "Second record here." with the
    vector [18] computed for the first text. *)
Example get_retriever_misaligned_store :
  let ext := Fixture.externals Fixture.steady in
  let w := Fixture.world
             [("a.json", Fixture.one_page "Alpha" "First record here.");
              ("b.json", Fixture.one_page "Beta" "Second record here.")]
             (Some "key")
             (Some {[ "Second record here." := [7 # 1]%Q ]}) ∅ in
  match fst (get_retriever ext "data" "idx" false 5 None w) with
  | Ok ens =>
      match retrievers ens with
      | [_; VectorStoreRetriever db _ _] =>
          index_vectors db = [[7 # 1]%Q; [18 # 1]%Q] /\
          map page_content (docstore db)
          = ["First record here."; "Second record here."]
      | _ => False
      end
  | Raise _ => False
  end.
Proof. vm_compute. split; reflexivity. Qed.

(** C3 on a whole run: the provider raises once; get_retriever ends with
    the provider's exception after a single call, nothing is slept and no
    cache file is written. *)
Example get_retriever_aborts_on_first_failure :
  let ext := Fixture.externals (Fixture.failing_first 1) in
  let w := Fixture.world
             [("a.json", Fixture.one_page "Alpha" "First record here.")]
             (Some "key") None ∅ in
  let r := get_retriever ext "data" "idx" false 5 None w in
  fst r = Raise ProviderError /\
  events (snd r) = [EvEmbed ["First record here."]] /\
  cache_file (snd r) = None.
Proof. vm_compute. repeat split; reflexivity. Qed.

(** * Further properties *)

(** ** More on the chunker *)

Lemma token_len_nonneg (enc : Encoding) (s : string) : (0 <= token_len enc s)%Z.
Proof. unfold token_len. lia. Qed.

Lemma total_tokens_nonneg (enc : Encoding) (ss : list string) :
  (0 <= total_tokens enc ss)%Z.
Proof.
  unfold total_tokens. induction ss as [|s ss IH]; cbn; [lia|].
  pose proof (token_len_nonneg enc s). lia.
Qed.

Section ChunkerMore.
Variable ext : Externals.
Variables max_tokens overlap_tokens : Z.
Variable model_name : string.

Abbreviation encM := (encoding_for_model ext model_name).
Abbreviation stepM :=
  (Chunker.sentence_step ext max_tokens overlap_tokens model_name).

Lemma step_overflow_without_overlap md st s :
  (max_tokens < Chunker.buffer_token_count st + token_len encM s)%Z ->
  (overlap_tokens <= 0)%Z ->
  stepM md st s
  = Chunker.mkLoop
      (Chunker.emitted st ++ [mkDocument (str_join " " (Chunker.buffer st)) md])
      [s] (token_len encM s).
Proof.
  intros H Hov. unfold Chunker.sentence_step.
  destruct (Z.leb_spec (Chunker.buffer_token_count st + token_len encM s)
                       max_tokens); [lia|].
  destruct (Z.ltb_spec 0 overlap_tokens); [lia|reflexivity].
Qed.

(** Sentences that fit together with what the buffer holds are all
    appended to it. *)
Lemma fold_all_fit md ss :
  forall st,
    (Chunker.buffer_token_count st + total_tokens encM ss <= max_tokens)%Z ->
    fold_left (stepM md) ss st
    = Chunker.mkLoop (Chunker.emitted st) (Chunker.buffer st ++ ss)
        (Chunker.buffer_token_count st + total_tokens encM ss).
Proof.
  induction ss as [|s ss IH]; intros st H.
  - cbn. rewrite app_nil_r, Z.add_0_r. now destruct st.
  - cbn [fold_left]. unfold total_tokens in *. cbn [map fold_right] in *.
    pose proof (total_tokens_nonneg encM ss) as Hnn. unfold total_tokens in Hnn.
    rewrite step_append by lia. rewrite IH by (cbn; lia). cbn.
    rewrite <- app_assoc. f_equal. lia.
Qed.

(** Invariant of the sentence loop without overlap: the groups emitted so
    far followed by the buffer are the sentences read so far. *)
Lemma fold_partition md ss :
  forall st (gs : list (list string)) (done : list string),
    (overlap_tokens <= 0)%Z ->
    Chunker.emitted st = map (fun g => mkDocument (str_join " " g) md) gs ->
    concat gs ++ Chunker.buffer st = done ->
    Forall (fun g => g <> []) (tail gs) ->
    (gs <> [] -> Chunker.buffer st <> []) ->
    exists gs',
      let st' := fold_left (stepM md) ss st in
      Chunker.emitted st' = map (fun g => mkDocument (str_join " " g) md) gs' /\
      concat gs' ++ Chunker.buffer st' = done ++ ss /\
      Forall (fun g => g <> []) (tail gs') /\
      (gs' <> [] -> Chunker.buffer st' <> []).
Proof.
  induction ss as [|s ss IH]; intros st gs done Hov He Hc Ht Hb.
  - exists gs. cbn. rewrite app_nil_r. auto.
  - cbn [fold_left].
    destruct (Z.le_gt_cases
                (Chunker.buffer_token_count st + token_len encM s) max_tokens)
      as [Hfit|Hover].
    + rewrite step_append by exact Hfit.
      destruct (IH (Chunker.mkLoop (Chunker.emitted st) (Chunker.buffer st ++ [s])
                      (Chunker.buffer_token_count st + token_len encM s))
                   gs (done ++ [s]) Hov) as (gs' & H1 & H2 & H3 & H4); cbn.
      * exact He.
      * rewrite app_assoc, Hc. reflexivity.
      * exact Ht.
      * intros _. destruct (Chunker.buffer st); discriminate.
      * exists gs'. cbv zeta in *. rewrite <- app_assoc in H2. auto.
    + rewrite step_overflow_without_overlap by (try lia; exact Hov).
      destruct (IH (Chunker.mkLoop
                      (Chunker.emitted st
                         ++ [mkDocument (str_join " " (Chunker.buffer st)) md])
                      [s] (token_len encM s))
                   (gs ++ [Chunker.buffer st]) (done ++ [s]) Hov)
        as (gs' & H1 & H2 & H3 & H4); cbn.
      * rewrite He, map_app. reflexivity.
      * rewrite concat_app. cbn. rewrite app_nil_r, Hc. reflexivity.
      * destruct gs as [|g gs]; cbn; [constructor|].
        apply Forall_app. split; [exact Ht|].
        constructor; [|constructor]. apply Hb. discriminate.
      * discriminate.
      * exists gs'. cbv zeta in *. rewrite <- app_assoc in H2. auto.
Qed.

Lemma buffer_after_fold md ss s st :
  Chunker.buffer (fold_left (stepM md) (ss ++ [s]) st) <> [].
Proof. rewrite fold_left_app. cbn. apply buffer_after_step. Qed.

End ChunkerMore.

(** X1. A document whose sentences fit the budget together gives exactly
    one chunk: its sentences joined by spaces, with the metadata of the
    document; nothing is carried over. *)
Theorem document_within_budget_is_one_chunk
    (ext : Externals) (max_tokens overlap_tokens : Z) (model_name : string)
    (doc : Document) :
  sent_tokenize ext (page_content doc) <> [] ->
  (total_tokens (encoding_for_model ext model_name)
                (sent_tokenize ext (page_content doc)) <= max_tokens)%Z ->
  Chunker.chunk_document ext max_tokens overlap_tokens model_name doc
  = [mkDocument (str_join " " (sent_tokenize ext (page_content doc)))
                (metadata doc)].
Proof.
  intros Hne Hfit. unfold Chunker.chunk_document.
  rewrite fold_all_fit by (cbn; lia). cbn.
  destruct (sent_tokenize ext (page_content doc)); [congruence|reflexivity].
Qed.

Lemma document_within_budget_is_one_chunk_witness :
  Chunker.chunk_document (Fixture.externals Fixture.steady) 300 50 small_model
    (Fixture.doc "A simple test sentence. And one more." "a.json")
  = [mkDocument "A simple test sentence. And one more."
                {[ "source" := "a.json" ]}].
Proof.
  refine (document_within_budget_is_one_chunk
            (Fixture.externals Fixture.steady) 300 50 small_model
            (Fixture.doc "A simple test sentence. And one more." "a.json") _ _).
  - vm_compute. discriminate.
  - vm_compute. discriminate.
Defined.

(** X2. Without overlap the chunks of a document cut its sentences into
    consecutive groups: joining the groups back gives the sentences in
    order, none lost and none repeated, and only the first group can be
    empty. *)
Theorem chunks_partition_sentences
    (ext : Externals) (max_tokens overlap_tokens : Z) (model_name : string)
    (doc : Document) :
  (overlap_tokens <= 0)%Z ->
  exists groups : list (list string),
    concat groups = sent_tokenize ext (page_content doc) /\
    Chunker.chunk_document ext max_tokens overlap_tokens model_name doc
    = map (fun g => mkDocument (str_join " " g) (metadata doc)) groups /\
    Forall (fun g => g <> []) (tail groups).
Proof.
  intros Hov. unfold Chunker.chunk_document.
  destruct (fold_partition ext max_tokens overlap_tokens model_name
              (metadata doc) (sent_tokenize ext (page_content doc))
              (Chunker.mkLoop [] [] 0) [] [] Hov eq_refl eq_refl
              (List.Forall_nil _) (fun H => False_ind _ (H eq_refl)))
    as (gs & H1 & H2 & H3 & H4).
  cbv zeta in *. cbn [app] in H2.
  set (st := fold_left _ _ _) in *.
  destruct (Chunker.buffer st) as [|b bs] eqn:Hb.
  - exists gs. rewrite app_nil_r in H2. auto.
  - exists (gs ++ [b :: bs]). split; [|split].
    + rewrite concat_app. cbn. now rewrite app_nil_r.
    + rewrite H1, map_app. reflexivity.
    + destruct gs as [|g gs]; cbn; [constructor|].
      apply Forall_app. split; [exact H3|].
      constructor; [discriminate|constructor].
Qed.

Lemma chunks_partition_sentences_witness :
  exists groups : list (list string),
    concat groups = ["Aaaaa."; "Bbb."; "C."] /\
    Chunker.chunk_document (Fixture.externals Fixture.steady) 6 0 small_model
      (Fixture.doc "Aaaaa. Bbb. C." "a.json")
    = map (fun g => mkDocument (str_join " " g)
                      {[ "source" := "a.json" ]}) groups /\
    Forall (fun g => g <> []) (tail groups).
Proof.
  exact (chunks_partition_sentences (Fixture.externals Fixture.steady) 6 0
           small_model (Fixture.doc "Aaaaa. Bbb. C." "a.json")
           ltac:(discriminate)).
Defined.

Lemma chunk_document_no_sentence
    (ext : Externals) (max_tokens overlap_tokens : Z) (model_name : string)
    (doc : Document) :
  sent_tokenize ext (page_content doc) = [] ->
  Chunker.chunk_document ext max_tokens overlap_tokens model_name doc = [].
Proof. unfold Chunker.chunk_document. intros ->. reflexivity. Qed.

Lemma chunk_document_nil_inv
    (ext : Externals) (max_tokens overlap_tokens : Z) (model_name : string)
    (doc : Document) :
  Chunker.chunk_document ext max_tokens overlap_tokens model_name doc = [] ->
  sent_tokenize ext (page_content doc) = [].
Proof.
  unfold Chunker.chunk_document. intros H.
  destruct (sent_tokenize ext (page_content doc)) as [|s0 ss0] eqn:Hs;
    [reflexivity|exfalso].
  destruct (exists_last (l := s0 :: ss0) ltac:(discriminate)) as (ss & s & E).
  rewrite E in H.
  pose proof (buffer_after_fold ext max_tokens overlap_tokens model_name
                (metadata doc) ss s (Chunker.mkLoop [] [] 0)) as Hb.
  destruct (Chunker.buffer _); [congruence|].
  now destruct (Chunker.emitted _).
Qed.

(** X3. A document gives no chunk exactly when it has no sentence. *)
Theorem chunk_document_nil_iff
    (ext : Externals) (max_tokens overlap_tokens : Z) (model_name : string)
    (doc : Document) :
  Chunker.chunk_document ext max_tokens overlap_tokens model_name doc = []
  <-> sent_tokenize ext (page_content doc) = [].
Proof.
  split; [apply chunk_document_nil_inv | apply chunk_document_no_sentence].
Qed.

(** ** split_sentences *)

Lemma visible_cons (c : ascii) (s : string) :
  visible (String c s) = (if isspace c then [] else [c]) ++ visible s.
Proof. unfold visible. cbn. now destruct (isspace c). Qed.

Lemma visible_lstrip (s : string) : visible (lstrip s) = visible s.
Proof.
  induction s as [|c s IH]; [reflexivity|]. cbn [lstrip].
  destruct (isspace c) eqn:E; [|reflexivity].
  rewrite IH, visible_cons, E. reflexivity.
Qed.

Lemma visible_rstrip (s : string) : visible (rstrip s) = visible s.
Proof.
  induction s as [|c s IH]; [reflexivity|]. cbn [rstrip].
  rewrite (visible_cons c s), <- IH.
  destruct (rstrip s) as [|c' r].
  - destruct (isspace c) eqn:E; [reflexivity|].
    rewrite visible_cons, E. reflexivity.
  - now rewrite visible_cons.
Qed.

Lemma visible_cons_head (c : ascii) (pieces : list string) :
  flat_map visible (cons_head c pieces)
  = (if isspace c then [] else [c]) ++ flat_map visible pieces.
Proof.
  destruct pieces as [|p ps]; cbn [cons_head flat_map].
  - rewrite visible_cons. now rewrite !app_nil_r.
  - rewrite visible_cons, <- app_assoc. reflexivity.
Qed.

Lemma split_from_visible (s : string) :
  forall prev skipping,
    flat_map visible (split_from prev skipping s) = visible s.
Proof.
  induction s as [|c s IH]; intros prev skipping; [reflexivity|].
  cbn [split_from]. rewrite visible_cons.
  destruct (isspace c) eqn:E.
  - rewrite !andb_true_r. destruct skipping; [apply IH|].
    destruct prev; cbn.
    + apply IH.
    + rewrite visible_cons_head, E. apply IH.
  - rewrite !andb_false_r. rewrite visible_cons_head, E, IH. reflexivity.
Qed.

(** X4. split_sentences only removes whitespace: the characters of the
    pieces that are not whitespace are those of the text, in the same
    order. *)
Theorem split_sentences_keeps_visible (text : string) :
  flat_map visible (split_sentences text) = visible text.
Proof.
  unfold split_sentences, strip.
  now rewrite split_from_visible, visible_rstrip, visible_lstrip.
Qed.

Lemma has_terminator_lstrip (s : string) :
  has_terminator s = false -> has_terminator (lstrip s) = false.
Proof.
  unfold has_terminator. induction s as [|c s IH]; [reflexivity|].
  cbn [lstrip]. destruct (isspace c); [|auto].
  cbn. intros H. apply orb_false_iff in H as [_ H]. auto.
Qed.

Lemma has_terminator_rstrip (s : string) :
  has_terminator s = false -> has_terminator (rstrip s) = false.
Proof.
  unfold has_terminator. induction s as [|c s IH]; [reflexivity|].
  cbn. intros H. apply orb_false_iff in H as [Hc H]. specialize (IH H).
  destruct (rstrip s) as [|c' r].
  - destruct (isspace c); cbn; [reflexivity|]. now rewrite Hc.
  - cbn in *. now rewrite Hc.
Qed.

Lemma split_from_no_terminator (s : string) :
  has_terminator s = false -> split_from false false s = [s].
Proof.
  unfold has_terminator. induction s as [|c s IH]; [reflexivity|].
  cbn. intros H. apply orb_false_iff in H as [Hc H].
  rewrite Hc, IH by exact H. reflexivity.
Qed.

(** X5. A text without '.', '!' and '?' is one sentence: the text
    stripped. *)
Theorem split_sentences_no_terminator (text : string) :
  has_terminator text = false ->
  split_sentences text = [strip text].
Proof.
  intros H. unfold split_sentences. apply split_from_no_terminator.
  unfold strip. now apply has_terminator_rstrip, has_terminator_lstrip.
Qed.

Lemma split_sentences_no_terminator_witness :
  split_sentences "  no full stop here  " = ["no full stop here"].
Proof.
  exact (split_sentences_no_terminator "  no full stop here  " eq_refl).
Defined.

Lemma ends_with_terminator_cons (c : ascii) (p : string) :
  ends_with_terminator p = true ->
  ends_with_terminator (String c p) = true.
Proof. destruct p; [discriminate|]. auto. Qed.

(** The pieces [split_from] returns: every piece that is followed by
    another one ends with a terminator, the first one counted with the
    character read before it. *)
Lemma split_from_pieces (s : string) :
  forall prev skipping,
    exists p rest,
      split_from prev skipping s = p :: rest /\
      (rest <> [] ->
       (p = EmptyString /\ prev = true) \/ ends_with_terminator p = true) /\
      Forall (fun q => ends_with_terminator q = true) (removelast rest).
Proof.
  induction s as [|c s IH]; intros prev skipping.
  - exists EmptyString, []. cbn. split; [reflexivity|]. split; [congruence|].
    constructor.
  - cbn [split_from].
    destruct (skipping && isspace c) eqn:E1.
    + destruct (IH false true) as (p & rest & -> & Hp & Hr).
      exists p, rest. split; [reflexivity|]. split; [|exact Hr].
      intros Hne. destruct (Hp Hne) as [[_ ?]|?]; [discriminate|now right].
    + destruct (prev && isspace c) eqn:E2.
      * destruct (IH false true) as (p & rest & -> & Hp & Hr).
        exists EmptyString, (p :: rest). split; [reflexivity|]. split.
        -- intros _. left. apply andb_true_iff in E2 as [-> _]. auto.
        -- destruct rest as [|r rest]; [constructor|].
           change (removelast (p :: r :: rest)) with (p :: removelast (r :: rest)).
           constructor; [|exact Hr].
           destruct (Hp ltac:(discriminate)) as [[_ ?]|?];
             [discriminate|assumption].
      * destruct (IH (is_terminator c) false) as (p & rest & -> & Hp & Hr).
        exists (String c p), rest. split; [reflexivity|]. split; [|exact Hr].
        intros Hne. right. destruct (Hp Hne) as [[-> Hc]|Hp'].
        -- exact Hc.
        -- now apply ends_with_terminator_cons.
Qed.

(** X6. Every sentence split_sentences returns, except the last one, ends
    with '.', '!' or '?'; in particular only the last one can be empty. *)
Theorem split_sentences_pieces_end_with_terminator (text : string) :
  Forall (fun p => ends_with_terminator p = true)
         (removelast (split_sentences text)).
Proof.
  unfold split_sentences.
  destruct (split_from_pieces (strip text) false false)
    as (p & rest & -> & Hp & Hr).
  destruct rest as [|r rest]; [constructor|].
  change (removelast (p :: r :: rest)) with (p :: removelast (r :: rest)).
  constructor; [|exact Hr].
  destruct (Hp ltac:(discriminate)) as [[_ ?]|?]; [discriminate|assumption].
Qed.

(** ** More on load_documents *)

Lemma foldM_load_file_ok (w : World) (folder : string) files :
  forall acc docs w',
    foldM (load_file folder) files acc w = (Ok docs, w') ->
    docs = acc ++ map document_of
                      (List.filter has_content (read_records w folder files)).
Proof.
  induction files as [|f files IH]; intros acc docs w'; cbn.
  - unfold ret. intros [= <- _]. now rewrite app_nil_r.
  - unfold bind, load_file at 1.
    destruct (json_files w (path_join folder f)) as [data|]; [|discriminate].
    cbn [app]. unfold has_content at 1. cbn [snd List.filter].
    destruct (truthy (full_text_of data)); intros H; apply IH in H; subst docs.
    + cbn. now rewrite <- app_assoc.
    + reflexivity.
Qed.

(** What a returning load_documents has read. *)
Lemma load_documents_ok (w w' : World) (folder : string) (limit : option Z)
    (docs : list Document) :
  load_documents folder limit w = (Ok docs, w') ->
  exists names,
    listdir w folder = Some names /\
    docs = map document_of
               (List.filter has_content
                  (read_records w folder (select_files names limit))).
Proof.
  unfold load_documents, bind.
  destruct (listdir w folder) as [names|]; [|discriminate].
  intros H. exists names. split; [reflexivity|].
  now apply foldM_load_file_ok in H.
Qed.

Lemma read_records_names (w : World) (folder : string) files (x : string) :
  In x (map fst (List.filter has_content (read_records w folder files))) ->
  In x files.
Proof.
  intros H. apply in_map_iff in H as ([f d] & <- & H).
  apply filter_In in H as [H _]. unfold read_records in H.
  apply in_flat_map in H as (g & Hg & H).
  destruct (json_files w (path_join folder g)); [|destruct H].
  destruct H as [[= <- _]|[]]. exact Hg.
Qed.

Lemma source_of_document_of (fd : string * RecordFile) :
  source_of (document_of fd) = fst fd.
Proof.
  unfold source_of, get_default, document_of. cbn [metadata].
  now rewrite metadata_of_source.
Qed.

Lemma string_compare_trans (s1 : string) :
  forall s2 s3,
    String.compare s1 s2 <> Gt -> String.compare s2 s3 <> Gt ->
    String.compare s1 s3 <> Gt.
Proof.
  induction s1 as [|a s1 IH]; intros [|b s2] [|c s3]; cbn; try congruence.
  unfold Ascii.compare.
  destruct (N.compare_spec (N_of_ascii a) (N_of_ascii b)),
           (N.compare_spec (N_of_ascii b) (N_of_ascii c)),
           (N.compare_spec (N_of_ascii a) (N_of_ascii c));
    try lia; try congruence; eauto.
Qed.

Lemma str_le_transitive : Transitive str_le.
Proof.
  intros s1 s2 s3. unfold str_le, String.leb. intros H12 H23.
  pose proof (string_compare_trans s1 s2 s3) as H.
  destruct (String.compare s1 s2), (String.compare s2 s3),
           (String.compare s1 s3); try discriminate; try reflexivity;
    exfalso; apply H; congruence.
Qed.

Lemma str_le_total : Total str_le.
Proof. intros s1 s2. apply String.leb_total. Qed.

Lemma StronglySorted_firstn {A} (R : relation A) (n : nat) (l : list A) :
  StronglySorted R l -> StronglySorted R (firstn n l).
Proof.
  intros H. revert n. induction H as [|x l Hl IH Hx]; intros [|n]; cbn;
    try constructor; auto.
  apply List.Forall_forall. intros y Hy.
  rewrite List.Forall_forall in Hx. apply Hx.
  rewrite <- (firstn_skipn n l). apply in_app_iff. now left.
Qed.

Lemma select_files_sorted (names : list string) (limit : option Z) :
  StronglySorted str_le (select_files names limit).
Proof.
  unfold select_files, sorted.
  pose proof str_le_transitive as Htrans. pose proof str_le_total as Htotal.
  pose proof (StronglySorted_merge_sort str_le
                (List.filter (fun f => endswith f ".json") names)) as H.
  destruct limit as [n|]; [|exact H].
  destruct (n =? 0)%Z; [exact H|].
  unfold py_prefix. destruct (0 <=? n)%Z; now apply StronglySorted_firstn.
Qed.

Lemma read_records_sorted (w : World) (folder : string) files :
  StronglySorted str_le files ->
  StronglySorted str_le
    (map fst (List.filter has_content (read_records w folder files))).
Proof.
  intros H. induction H as [|f files Hs IH Hf]; [constructor|].
  cbn [read_records flat_map].
  destruct (json_files w (path_join folder f)) as [data|]; [|exact IH].
  cbn [app List.filter]. destruct (has_content (f, data)); [|exact IH].
  cbn [map fst]. constructor; [exact IH|].
  apply List.Forall_forall. intros x Hx.
  rewrite List.Forall_forall in Hf. apply Hf.
  eapply read_records_names; eauto.
Qed.

(** X7. The documents load_documents returns are in ascending order of the
    name of the file they come from, whatever order the directory lists
    its files in. *)
Theorem load_documents_in_file_order
    (w w' : World) (folder : string) (limit : option Z)
    (docs : list Document) :
  load_documents folder limit w = (Ok docs, w') ->
  StronglySorted str_le (map source_of docs).
Proof.
  intros H. apply load_documents_ok in H as (names & _ & ->).
  rewrite map_map.
  rewrite (map_ext _ fst) by (intros fd; apply source_of_document_of).
  apply read_records_sorted, select_files_sorted.
Qed.

Lemma load_documents_in_file_order_witness :
  let w := Fixture.world
             [("b.json", Fixture.one_page "Beta" "Second record here.");
              ("a.json", Fixture.one_page "Alpha" "First record here.")]
             (Some "key") None ∅ in
  StronglySorted str_le
    (map source_of
         (match fst (load_documents "data" None w) with
          | Ok docs => docs
          | Raise _ => []
          end)).
Proof.
  intros w.
  refine (load_documents_in_file_order w w "data" None _ _).
  vm_compute. reflexivity.
Defined.

(** X8. A positive limit_files bounds the number of documents returned,
    and a limit of 0 is no limit at all: it loads what no limit loads. *)
Theorem limit_files_bounds_documents
    (w w' : World) (folder : string) (n : Z) (docs : list Document) :
  (0 < n)%Z ->
  load_documents folder (Some n) w = (Ok docs, w') ->
  length docs <= Z.to_nat n /\
  load_documents folder (Some 0%Z) w = load_documents folder None w.
Proof.
  intros Hn H. split; [|reflexivity].
  apply load_documents_ok in H as (names & _ & ->).
  rewrite length_map.
  assert (Hsel : length (select_files names (Some n)) <= Z.to_nat n).
  { unfold select_files. destruct (Z.eqb_spec n 0); [lia|].
    unfold py_prefix. destruct (Z.leb_spec 0 n); [|lia].
    rewrite length_firstn. lia. }
  revert Hsel. generalize (select_files names (Some n)) as files.
  intros files Hsel.
  assert (Hrec : length (List.filter has_content (read_records w folder files))
                 <= length files).
  { clear. induction files as [|f files IH]; [cbn; lia|].
    cbn [read_records flat_map length].
    destruct (json_files w (path_join folder f)) as [data|];
      cbn [app List.filter]; [|unfold read_records in IH; lia].
    destruct (has_content (f, data)); cbn [length];
      unfold read_records in IH; lia. }
  lia.
Qed.

Lemma limit_files_bounds_documents_witness :
  let w := Fixture.world
             [("b.json", Fixture.one_page "Beta" "Second record here.");
              ("a.json", Fixture.one_page "Alpha" "First record here.")]
             (Some "key") None ∅ in
  length (match fst (load_documents "data" (Some 1%Z) w) with
          | Ok docs => docs
          | Raise _ => []
          end) <= 1.
Proof.
  intros w.
  refine (proj1 (limit_files_bounds_documents w w "data" 1 _ ltac:(lia) _)).
  vm_compute. reflexivity.
Defined.

(** X9 at a concrete input: the second record file cannot be read. *)
Lemma load_documents_unreadable_witness :
  let w := mkWorld (fun _ => Some ["a.json"; "b.json"])
             (fun path => if String.eqb path "data/a.json"
                          then Some (Fixture.one_page "Alpha" "First.")
                          else None)
             (Some "key") None ∅ [] in
  fst (load_documents "data" None w) = Raise ReadError.
Proof.
  intros w.
  refine (load_documents_unreadable w "data" None ["a.json"; "b.json"]
            "b.json" eq_refl _ eq_refl).
  vm_compute. auto.
Defined.

Lemma metadata_of_keys (data : RecordFile) (filename : string) :
  dom (metadata_of data filename) = metadata_keys.
Proof.
  unfold metadata_of, metadata_keys, field_table.
  rewrite !dom_insert_L, dom_empty_L. cbn. set_solver.
Qed.

(** X10. Every document load_documents returns has a content that is not
    empty and exactly the ten metadata keys of the source, whatever fields
    the record holds: other fields of the record are dropped and missing
    ones are present with the empty string. *)
Theorem loaded_documents_shape
    (w w' : World) (folder : string) (limit : option Z)
    (docs : list Document) :
  load_documents folder limit w = (Ok docs, w') ->
  Forall (fun d => page_content d <> EmptyString /\
                   dom (metadata d) = metadata_keys) docs.
Proof.
  intros H. apply load_documents_ok in H as (names & _ & ->).
  apply List.Forall_forall. intros d Hd.
  apply in_map_iff in Hd as (fd & <- & Hfd).
  apply filter_In in Hfd as [_ Hc]. split.
  - unfold has_content in Hc. unfold document_of. cbn.
    destruct (full_text_of (snd fd)); [discriminate|congruence].
  - apply metadata_of_keys.
Qed.

Lemma loaded_documents_shape_witness :
  let w := Fixture.world
             [("a.json",
               mkRecordFile (Some {[ "사업명" := "Alpha"; "extra" := "dropped" ]})
                            (Some [ {[ "text" := "First record here." ]} ]))]
             (Some "key") None ∅ in
  Forall (fun d => page_content d <> EmptyString /\
                   dom (metadata d) = metadata_keys)
         (match fst (load_documents "data" None w) with
          | Ok docs => docs
          | Raise _ => []
          end).
Proof.
  intros w.
  refine (loaded_documents_shape w w "data" None _ _).
  vm_compute. reflexivity.
Defined.

(** ** More on deduplication *)

Lemma unique_pairs_snoc (docs : list Document) (d : Document) :
  unique_pairs (docs ++ [d])
  = dict_set (strip (page_content d)) (metadata d) (unique_pairs docs).
Proof. unfold unique_pairs. now rewrite fold_left_app. Qed.

Lemma unique_pairs_NoDup (docs : list Document) :
  NoDup (map fst (unique_pairs docs)).
Proof.
  induction docs as [|d docs IH] using rev_ind; [constructor|].
  rewrite unique_pairs_snoc. now apply dict_set_NoDup.
Qed.

(** X11. Deduplication keeps one entry for each trimmed text, and gives it
    the metadata of the last document that has this text: the metadata of
    earlier documents with the same text is overwritten. *)
Theorem unique_pairs_last_wins (docs : list Document) :
  NoDup (map fst (unique_pairs docs)) /\
  (forall t, In t (map fst (unique_pairs docs)) <->
             exists d, In d docs /\ t = strip (page_content d)) /\
  (forall t m, In (t, m) (unique_pairs docs) ->
     exists before d after,
       docs = before ++ d :: after /\
       strip (page_content d) = t /\ metadata d = m /\
       forall d', In d' after -> strip (page_content d') <> t).
Proof.
  split; [apply unique_pairs_NoDup|]. split; [apply unique_pairs_keys|].
  induction docs as [|d docs IH] using rev_ind; [intros t m []|].
  intros t m. rewrite unique_pairs_snoc. intros H.
  apply dict_set_In in H; [|apply unique_pairs_NoDup].
  destruct H as [[-> ->]|[Hne H]].
  - exists docs, d, []. repeat split; auto.
  - destruct (IH t m H) as (before & d0 & after & -> & Ht & Hm & Hafter).
    exists before, d0, (after ++ [d]). rewrite <- app_assoc. cbn.
    repeat split; auto.
    intros d' Hd'. apply in_app_iff in Hd' as [Hd'|[<-|[]]]; auto.
Qed.

(** ** More on the embedding loop *)

Lemma store_new_other pairs (c n : gmap string vector) (h : string) :
  (forall h', In h' (map fst pairs) -> h' <> h) ->
  fst (fold_left store_new pairs (c, n)) !! h = c !! h.
Proof.
  revert c n. induction pairs as [|[h' v] pairs IH]; intros c n Hne; cbn.
  - reflexivity.
  - transitivity ((<[h' := v]> c) !! h).
    + apply IH. intros x Hx. apply Hne. now right.
    + apply lookup_insert_ne. apply Hne. now left.
Qed.

Lemma batch_misses_In ext c batch t :
  In t (batch_misses ext c batch) ->
  In t batch /\ c !! md5_hexdigest ext t = None.
Proof.
  unfold batch_misses. intros H. apply filter_In in H as [Hin Hm].
  split; [exact Hin|]. unfold is_miss in Hm.
  now destruct (c !! md5_hexdigest ext t).
Qed.

Section LoopMore.
Variable ext : Externals.
Variable enc : Encoding.
Variable embed_call : list string -> M (list vector).

Lemma process_batch_keeps st batch w st' w' (h : string) (v : vector) :
  process_batch ext enc embed_call st batch w = (Ok st', w') ->
  cache st !! h = Some v -> cache st' !! h = Some v.
Proof.
  rewrite process_batch_eq. cbv zeta.
  destruct (batch_misses ext (cache st) batch) as [|t0 ts] eqn:Em.
  - unfold ret. now intros [= <- _].
  - rewrite <- Em.
    match goal with
    | |- context [bind (if ?b then ?x else ?y) _] =>
        set (call := if b then x else y)
    end.
    unfold bind at 1. destruct (call w) as [[embs|e] w1]; [|discriminate].
    unfold ret. intros [= <- _] Hh. cbn [cache].
    rewrite store_new_other; [exact Hh|].
    intros h' Hin ->.
    apply in_map_iff in Hin as ([h1 e1] & Heq & Hin). cbn in Heq. subst h1.
    apply in_combine_l in Hin. apply in_map_iff in Hin as (t & Ht & Hin).
    apply batch_misses_In in Hin as [_ Hnone].
    congruence.
Qed.

Lemma foldM_keeps bs :
  forall st w st' w' (h : string) (v : vector),
    foldM (process_batch ext enc embed_call) bs st w = (Ok st', w') ->
    cache st !! h = Some v -> cache st' !! h = Some v.
Proof.
  induction bs as [|b bs IH]; intros st w st' w' h v; cbn.
  - unfold ret. now intros [= <- _].
  - unfold bind.
    destruct (process_batch ext enc embed_call st b w) as [[st1|e] w1] eqn:E;
      [|discriminate].
    intros H Hh. eapply IH; [exact H|]. eapply process_batch_keeps; eauto.
Qed.

End LoopMore.

Lemma concat_batches (size : nat) (texts : list string) :
  0 < size -> concat (batches size texts) = texts.
Proof.
  intros Hs. unfold batches, range_step. rewrite map_map.
  assert (H : forall q,
    concat (map (fun j => firstn size (skipn (j * size) texts)) (seq 0 q))
    = firstn (q * size) texts).
  { induction q as [|q IH]; [reflexivity|].
    rewrite seq_S, map_app, concat_app, IH. cbn [map concat Nat.add].
    rewrite app_nil_r, take_take_drop. f_equal. lia. }
  rewrite H. apply firstn_all2.
  pose proof (Nat.div_mod_eq (length texts + size - 1) size) as Hd.
  pose proof (Nat.mod_upper_bound (length texts + size - 1) size) as Hm.
  nia.
Qed.

Lemma batch_hits_misses_length ext c batch :
  length (batch_hits ext c batch) + length (batch_misses ext c batch)
  = length batch.
Proof.
  unfold batch_hits, batch_misses, is_miss.
  induction batch as [|t batch IH]; cbn; [reflexivity|].
  destruct (c !! md5_hexdigest ext t); cbn; rewrite ?length_app; cbn; lia.
Qed.

Section Counting.
Variable ext : Externals.
Variable enc : Encoding.
Hypothesis contract : provider_contract ext.

Lemma process_batch_length st batch w st' w' :
  process_batch ext enc (call_provider ext) st batch w = (Ok st', w') ->
  length (embeddings st') = length (embeddings st) + length batch.
Proof.
  pose proof (batch_hits_misses_length ext (cache st) batch) as Hhm.
  rewrite process_batch_eq. cbv zeta.
  destruct (batch_misses ext (cache st) batch) as [|t0 ts] eqn:Em.
  - unfold ret. intros [= <- _]. cbn in *. rewrite length_app. lia.
  - rewrite <- Em in *. set (misses := batch_misses ext (cache st) batch) in *.
    match goal with
    | |- context [bind (if ?b then ?x else ?y) _] =>
        set (call := if b then x else y)
    end.
    unfold bind at 1.
    destruct (call w) as [[embs|e] w1] eqn:Ecall; [|discriminate].
    assert (Hlen : length embs = length misses).
    { subst call. destruct (280000 <? _)%Z.
      - unfold bind in Ecall.
        destruct (call_provider ext (firstn _ _) w) as [[a|e] wa] eqn:Ea;
          [|discriminate].
        destruct (call_provider ext (skipn _ _) wa) as [[b|e] wb] eqn:Eb;
          [|discriminate].
        injection Ecall as <- _.
        apply call_provider_length in Ea, Eb; try exact contract.
        rewrite length_app, Ea, Eb, <- length_app, firstn_skipn.
        reflexivity.
      - eapply call_provider_length; eauto. }
    destruct misses; [discriminate|].
    unfold ret. intros [= <- _]. cbn [embeddings].
    rewrite !length_app. lia.
Qed.

Lemma foldM_length bs :
  forall st w st' w',
    foldM (process_batch ext enc (call_provider ext)) bs st w = (Ok st', w') ->
    length (embeddings st') = length (embeddings st) + length (concat bs).
Proof.
  induction bs as [|b bs IH]; intros st w st' w'; cbn.
  - unfold ret. intros [= <- _]. lia.
  - unfold bind.
    destruct (process_batch ext enc (call_provider ext) st b w)
      as [[st1|e] w1] eqn:E; [|discriminate].
    intros H. apply IH in H. apply process_batch_length in E.
    rewrite length_app. lia.
Qed.

End Counting.



(** X13. get_retriever never changes or removes a vector that is in the
    cache file: whatever the outcome of the run, an entry of the cache
    file is still there afterwards, with the same vector. *)
Theorem cache_entries_are_kept
    (ext : Externals) (path idx : string) (reuse : bool) (k : Z)
    (limit : option Z) (w : World) (h : string) (v : vector) :
  default ∅ (cache_file w) !! h = Some v ->
  default ∅ (cache_file (snd (get_retriever ext path idx reuse k limit w))) !! h
  = Some v.
Proof.
  intros Hh. rewrite get_retriever_eq.
  destruct (fst (load_documents path limit w)) as [[|d ds]|e]; try exact Hh.
  cbv zeta.
  destruct (Chunker.semantic_token_chunk_documents _ _ _ _ _) as [|ch chs];
    [exact Hh|].
  destruct (negb _); [exact Hh|].
  destruct (if reuse then _ else _); [exact Hh|].
  rewrite embed_and_index_eq. cbv zeta.
  destruct (map fst (unique_pairs (ch :: chs))); [exact Hh|].
  set (pairs := filtered_pairs _ 2 _).
  destruct (map fst pairs) eqn:Et; [exact Hh|]. rewrite <- Et.
  pose proof (embed_loop_leaves_cache_file ext
                (encoding_for_model ext small_model) (call_provider ext) 100
                (default ∅ (cache_file w)) (map fst pairs) w
                (call_provider_leaves_cache_file ext)) as [Hf _].
  destruct (embed_loop _ _ _ _ _ _ _) as [[st|e] w1] eqn:El; cbn in Hf.
  - assert (Hp : default ∅ (cache_file (snd (persist_cache st w1))) !! h
                 = Some v).
    { unfold persist_cache. destruct (bool_decide _); cbn.
      - now rewrite Hf.
      - unfold embed_loop in El. eapply foldM_keeps; [exact El|exact Hh]. }
    destruct (fst (build_index _ _ _)); cbn; exact Hp.
  - cbn. now rewrite Hf.
Qed.

Lemma cache_entries_are_kept_witness :
  let ext := Fixture.externals Fixture.steady in
  let w := Fixture.world
             [("a.json", Fixture.one_page "Alpha" "First record here.")]
             (Some "key") (Some {[ "Old text." := [3 # 1]%Q ]}) ∅ in
  default ∅ (cache_file (snd (get_retriever ext "data" "idx" false 5 None w)))
    !! "Old text." = Some [3 # 1]%Q.
Proof.
  intros ext w.
  exact (cache_entries_are_kept ext "data" "idx" false 5 None w "Old text."
           [3 # 1]%Q eq_refl).
Defined.

Lemma batch_hits_all_cached ext c batch :
  all_cached ext c batch ->
  map Some (batch_hits ext c batch) = map (cached_vector ext c) batch.
Proof.
  unfold batch_hits, cached_vector, hash_text.
  induction batch as [|t batch IH]; intros H; cbn; [reflexivity|].
  destruct (H t (or_introl eq_refl)) as [v Hv]. rewrite Hv. cbn.
  f_equal. apply IH. intros t' Ht'. apply H. now right.
Qed.

Lemma foldM_full_hit_embeddings ext enc embed_call c bs :
  forall st w,
    cache st = c ->
    (forall b, In b bs -> all_cached ext c b) ->
    exists st',
      foldM (process_batch ext enc embed_call) bs st w = (Ok st', w) /\
      embeddings st' = embeddings st ++ batch_hits ext c (concat bs).
Proof.
  induction bs as [|b bs IH]; intros st w Hc Hall; cbn.
  - exists st. now rewrite app_nil_r.
  - unfold bind. rewrite process_batch_full_hit
      by (rewrite Hc; apply Hall; now left).
    destruct (IH (mkEmbed (cache st)
                    (embeddings st ++ batch_hits ext (cache st) b)
                    (new_cache_entries st)) w Hc)
      as (st' & -> & He).
    { intros b' Hb'. apply Hall. now right. }
    exists st'. split; [reflexivity|]. rewrite He. cbn. rewrite Hc.
    unfold batch_hits. now rewrite flat_map_app, app_assoc.
Qed.

(** X14. When every text is in the cache, the loop returns the cached
    vectors in the order of the texts, the i-th vector being the one the
    cache holds for the i-th text, and leaves the world untouched. *)
Theorem full_hit_is_aligned
    (ext : Externals) (enc : Encoding)
    (embed_call : list string -> M (list vector))
    (size : nat) (c : gmap string vector) (texts : list string) (w : World) :
  0 < size ->
  all_cached ext c texts ->
  exists st,
    embed_loop ext enc embed_call size c texts w = (Ok st, w) /\
    map Some (embeddings st) = map (cached_vector ext c) texts.
Proof.
  intros Hs Hall. unfold embed_loop.
  destruct (foldM_full_hit_embeddings ext enc embed_call c (batches size texts)
              (mkEmbed c [] ∅) w eq_refl) as (st & H & He).
  { intros b Hb t Ht. apply Hall. eapply batches_In_inv; eauto. }
  exists st. split; [exact H|].
  rewrite He, concat_batches by exact Hs. cbn.
  now apply batch_hits_all_cached.
Qed.

Lemma full_hit_is_aligned_witness :
  exists st,
    embed_loop (Fixture.externals (Fixture.failing_first 1))
      Fixture.char_encoding
      (call_provider (Fixture.externals (Fixture.failing_first 1))) 1
      {[ "Alpha text." := [1 # 1]%Q; "Bravo text." := [2 # 1]%Q ]}
      ["Bravo text."; "Alpha text."] (Fixture.world [] (Some "key") None ∅)
    = (Ok st, Fixture.world [] (Some "key") None ∅) /\
    map Some (embeddings st)
    = map (cached_vector (Fixture.externals (Fixture.failing_first 1))
             {[ "Alpha text." := [1 # 1]%Q; "Bravo text." := [2 # 1]%Q ]})
          ["Bravo text."; "Alpha text."].
Proof.
  apply full_hit_is_aligned; [lia|].
  intros t [<-|[<-|[]]]; vm_compute; eauto.
Defined.

Lemma call_provider_events ext ts w :
  events (snd (call_provider ext ts w)) = events w ++ [EvEmbed ts].
Proof. now rewrite call_provider_world. Qed.

Lemma process_batch_events ext enc st batch w :
  exists evs,
    events (snd (process_batch ext enc (call_provider ext) st batch w))
    = events w ++ evs /\
    only_misses_sent ext (cache st) evs.
Proof.
  rewrite process_batch_eq. cbv zeta.
  destruct (batch_misses ext (cache st) batch) as [|t0 ts] eqn:Em.
  - exists []. cbn. rewrite app_nil_r. split; [reflexivity|constructor].
  - rewrite <- Em. set (misses := batch_misses ext (cache st) batch).
    assert (Hsub : forall ts', (forall t, In t ts' -> In t misses) ->
              exists ts0, EvEmbed ts' = EvEmbed ts0 /\
                forall t, In t ts0 -> cached_vector ext (cache st) t = None).
    { intros ts' Hs. exists ts'. split; [reflexivity|].
      intros t Ht. apply Hs in Ht. now apply batch_misses_In in Ht as [_ ?]. }
    assert (H1 : forall t, In t (firstn (length misses / 2) misses) ->
                           In t misses).
    { intros t Ht. rewrite <- (firstn_skipn (length misses / 2) misses).
      apply in_app_iff. now left. }
    assert (H2 : forall t, In t (skipn (length misses / 2) misses) ->
                           In t misses).
    { intros t Ht. rewrite <- (firstn_skipn (length misses / 2) misses).
      apply in_app_iff. now right. }
    destruct (280000 <? _)%Z; unfold bind.
    + pose proof (call_provider_events ext
                    (firstn (length misses / 2) misses) w) as Ea.
      destruct (call_provider ext (firstn _ _) w) as [[a|e] wa]; cbn in Ea.
      * pose proof (call_provider_events ext
                      (skipn (length misses / 2) misses) wa) as Eb.
        destruct (call_provider ext (skipn _ _) wa) as [[b|e] wb]; cbn in Eb;
          (eexists [_; _]; cbn; split;
           [rewrite Eb, Ea, <- app_assoc; reflexivity|
            constructor; [apply Hsub, H1|constructor;
                                          [apply Hsub, H2|constructor]]]).
      * eexists [_]. cbn. split; [exact Ea|].
        constructor; [apply Hsub, H1|constructor].
    + pose proof (call_provider_events ext misses w) as Ea.
      destruct (call_provider ext misses w) as [[a|e] wa]; cbn in Ea;
        (eexists [_]; cbn; split; [exact Ea|];
         constructor; [apply Hsub; auto|constructor]).
Qed.

Lemma foldM_events ext enc (c : gmap string vector) bs :
  forall st w,
    (forall h v, c !! h = Some v -> cache st !! h = Some v) ->
    exists evs,
      events (snd (foldM (process_batch ext enc (call_provider ext)) bs st w))
      = events w ++ evs /\
      only_misses_sent ext c evs.
Proof.
  induction bs as [|b bs IH]; intros st w Hmono; cbn.
  - exists []. rewrite app_nil_r. split; [reflexivity|constructor].
  - unfold bind.
    destruct (process_batch_events ext enc st b w) as (ev1 & E1 & M1).
    assert (M1' : only_misses_sent ext c ev1).
    { eapply List.Forall_impl; [|exact M1]. cbn.
      intros e (ts & -> & Hts). exists ts. split; [reflexivity|].
      intros t Ht. specialize (Hts t Ht). unfold cached_vector in *.
      destruct (c !! hash_text ext t) as [v|] eqn:Ec; [|reflexivity].
      apply Hmono in Ec. congruence. }
    destruct (process_batch ext enc (call_provider ext) st b w)
      as [[st1|e] w1] eqn:E; cbn in E1.
    + destruct (IH st1 w1) as (ev2 & E2 & M2).
      { intros h v Hh. eapply process_batch_keeps; [exact E|]. auto. }
      exists (ev1 ++ ev2). split.
      * rewrite E2, E1, app_assoc. reflexivity.
      * apply Forall_app. split; assumption.
    + exists ev1. cbn. split; assumption.
Qed.

(** X15. Whatever the outcome, all that the batch loop of get_retriever
    adds to the log is provider calls, and no text of any of these calls
    had its digest in the cache the run started with: a cached text is
    never sent to the provider. *)
Theorem cached_texts_are_not_sent
    (ext : Externals) (enc : Encoding) (size : nat)
    (c : gmap string vector) (texts : list string) (w : World) :
  exists evs,
    events (snd (embed_loop ext enc (call_provider ext) size c texts w))
    = events w ++ evs /\
    only_misses_sent ext c evs.
Proof. unfold embed_loop. apply foldM_events. cbn. auto. Qed.

(** ** A run on a cold cache *)

Section ColdCache.
Variable ext : Externals.
Variable enc : Encoding.
Variable f : string -> vector.
Hypothesis pure_provider :
  forall n ts, embed_documents ext n ts = Some (map f ts).

Lemma call_provider_pure ts w :
  call_provider ext ts w = (Ok (map f ts), add_event (EvEmbed ts) w).
Proof. apply call_provider_ok, pure_provider. Qed.

Lemma batch_all_miss c batch :
  (forall t, In t batch -> c !! md5_hexdigest ext t = None) ->
  batch_misses ext c batch = batch /\ batch_hits ext c batch = [].
Proof.
  unfold batch_misses, batch_hits, is_miss.
  induction batch as [|t batch IH]; intros H; cbn; [auto|].
  rewrite (H t (or_introl eq_refl)).
  destruct IH as [-> ->]; [intros t' Ht'; apply H; now right|]. auto.
Qed.

Lemma process_batch_all_miss st batch w :
  (forall t, In t batch -> cache st !! md5_hexdigest ext t = None) ->
  exists st' w',
    process_batch ext enc (call_provider ext) st batch w = (Ok st', w') /\
    embeddings st' = embeddings st ++ map f batch /\
    forall h, ~ In h (map (md5_hexdigest ext) batch) ->
              cache st' !! h = cache st !! h.
Proof.
  intros Hmiss. rewrite process_batch_eq. cbv zeta.
  destruct (batch_all_miss (cache st) batch Hmiss) as [-> ->].
  destruct batch as [|t0 ts] eqn:Eb.
  - eexists _, _. split; [reflexivity|]. cbn. rewrite !app_nil_r. auto.
  - rewrite <- Eb in *. clear Eb.
    assert (Hcall : exists w',
      (if (280000 <? fold_right Z.add 0 (map (token_len enc) batch))%Z
       then
         bind (call_provider ext (firstn (length batch / 2) batch))
              (fun a => bind (call_provider ext (skipn (length batch / 2) batch))
                             (fun b => ret (a ++ b)))
       else call_provider ext batch) w = (Ok (map f batch), w')).
    { destruct (280000 <? _)%Z.
      - unfold bind. rewrite !call_provider_pure. unfold ret.
        rewrite <- map_app, firstn_skipn. eauto.
      - rewrite call_provider_pure. eauto. }
    destruct Hcall as [w' Hcall].
    unfold bind at 1. rewrite Hcall. unfold ret.
    eexists _, _. split; [reflexivity|]. cbn [embeddings cache].
    rewrite app_nil_r. split; [reflexivity|].
    intros h Hh. apply store_new_other.
    intros h' Hin ->. apply Hh.
    apply in_map_iff in Hin as ([h1 e1] & Heq & Hin). cbn in Heq. subst h1.
    now apply in_combine_l in Hin.
Qed.

Lemma foldM_all_miss bs :
  forall st w,
    (forall t, In t (concat bs) -> cache st !! md5_hexdigest ext t = None) ->
    NoDup (map (md5_hexdigest ext) (concat bs)) ->
    exists st' w',
      foldM (process_batch ext enc (call_provider ext)) bs st w = (Ok st', w') /\
      embeddings st' = embeddings st ++ map f (concat bs).
Proof.
  induction bs as [|b bs IH]; intros st w Hmiss Hnd; cbn.
  - eexists _, _. split; [reflexivity|]. now rewrite app_nil_r.
  - cbn [concat] in Hmiss, Hnd. rewrite map_app in Hnd.
    apply NoDup_app in Hnd as (_ & Hdisj & Hnd).
    destruct (process_batch_all_miss st b w) as (st1 & w1 & E1 & He1 & Hc1).
    { intros t Ht. apply Hmiss. apply in_app_iff. now left. }
    unfold bind. rewrite E1.
    destruct (IH st1 w1) as (st' & w' & E2 & He2); [|exact Hnd|].
    { intros t Ht. rewrite Hc1.
      - apply Hmiss. apply in_app_iff. now right.
      - intros Hin. apply list_elem_of_In in Hin.
        apply (Hdisj _ Hin). apply list_elem_of_In. now apply in_map. }
    eexists _, _. split; [exact E2|].
    rewrite He2, He1, map_app, app_assoc. reflexivity.
Qed.

End ColdCache.

(** X16. On a cold cache the loop is aligned: when no text has its digest
    in the cache, the digests of the texts are pairwise distinct and the
    provider answers every call with the vector [f t] for each text [t],
    the loop returns [f] of the texts, in the order of the texts. *)
Theorem cold_cache_is_aligned
    (ext : Externals) (enc : Encoding) (f : string -> vector)
    (size : nat) (c : gmap string vector) (texts : list string) (w : World) :
  0 < size ->
  (forall n ts, embed_documents ext n ts = Some (map f ts)) ->
  (forall t, In t texts -> c !! md5_hexdigest ext t = None) ->
  NoDup (map (md5_hexdigest ext) texts) ->
  exists st w',
    embed_loop ext enc (call_provider ext) size c texts w = (Ok st, w') /\
    embeddings st = map f texts.
Proof.
  intros Hs Hpure Hmiss Hnd. unfold embed_loop.
  destruct (foldM_all_miss ext enc f Hpure (batches size texts)
              (mkEmbed c [] ∅) w) as (st & w' & E & He).
  - rewrite concat_batches by exact Hs. exact Hmiss.
  - rewrite concat_batches by exact Hs. exact Hnd.
  - exists st, w'. split; [exact E|].
    rewrite He, concat_batches by exact Hs. reflexivity.
Qed.

Lemma cold_cache_is_aligned_witness :
  exists st w',
    embed_loop (Fixture.externals Fixture.steady) Fixture.char_encoding
      (call_provider (Fixture.externals Fixture.steady)) 2 ∅
      ["Alpha text."; "Bravo text here."; "Charlie."]
      (Fixture.world [] (Some "key") None ∅) = (Ok st, w') /\
    embeddings st
    = map (fun t => [Z.of_nat (String.length t) # 1]%Q)
          ["Alpha text."; "Bravo text here."; "Charlie."].
Proof.
  apply cold_cache_is_aligned.
  - lia.
  - reflexivity.
  - intros t _. reflexivity.
  - cbn. repeat (apply NoDup_cons_2;
                 [rewrite list_elem_of_In; cbn; intuition discriminate|]).
    apply NoDup_nil_2.
Defined.

(** ** More on embed_with_retry *)

Lemma failed_attempts_S ts a i :
  failed_attempts ts a (S i)
  = [EvEmbed ts; EvSleep (2 ^ Z.of_nat a)] ++ failed_attempts ts (S a) i.
Proof. reflexivity. Qed.

Lemma provider_calls_add_events_failed ts a i w :
  provider_calls (add_events (failed_attempts ts a i) w) = provider_calls w + i.
Proof.
  revert a w. induction i as [|i IH]; intros a w; [cbn; lia|].
  rewrite failed_attempts_S. cbn [app add_events fold_left].
  change (fold_left (fun w e => add_event e w) (failed_attempts ts (S a) i) ?x)
    with (add_events (failed_attempts ts (S a) i) x).
  rewrite IH, provider_calls_add_other, provider_calls_add_embed by reflexivity.
  lia.
Qed.

Lemma retry_loop_succeeds ext ts vs (i : nat) :
  forall a n w,
    i < n ->
    (forall j, j < i -> embed_documents ext (provider_calls w + j) ts = None) ->
    embed_documents ext (provider_calls w + i) ts = Some vs ->
    retry_loop ext (seq a n) ts w
    = (Ok vs, add_event (EvEmbed ts) (add_events (failed_attempts ts a i) w)).
Proof.
  induction i as [|i IH]; intros a n w Hlt Hfail Hok;
    (destruct n as [|n]; [lia|]); cbn [seq retry_loop]; unfold try_except.
  - rewrite Nat.add_0_r in Hok. now rewrite (call_provider_ok _ _ _ _ Hok).
  - rewrite call_provider_fail
      by (rewrite <- (Nat.add_0_r (provider_calls w)); apply Hfail; lia).
    unfold bind, sleep, log_event.
    rewrite (IH (S a) n) .
    + rewrite failed_attempts_S. reflexivity.
    + lia.
    + intros j Hj.
      rewrite provider_calls_add_other, provider_calls_add_embed by reflexivity.
      replace (S (provider_calls w) + j) with (provider_calls w + S j) by lia.
      apply Hfail. lia.
    + rewrite provider_calls_add_other, provider_calls_add_embed by reflexivity.
      replace (S (provider_calls w) + i) with (provider_calls w + S i) by lia.
      exact Hok.
Qed.

Lemma retry_loop_exhausted ext ts :
  forall n a w,
    (forall j, j < n -> embed_documents ext (provider_calls w + j) ts = None) ->
    retry_loop ext (seq a n) ts w
    = (Raise (RuntimeError "Embedding failed after multiple retries"),
       add_events (failed_attempts ts a n) w).
Proof.
  induction n as [|n IH]; intros a w Hfail; cbn [seq retry_loop].
  - reflexivity.
  - unfold try_except.
    rewrite call_provider_fail
      by (rewrite <- (Nat.add_0_r (provider_calls w)); apply Hfail; lia).
    unfold bind, sleep, log_event. rewrite (IH (S a)).
    + rewrite failed_attempts_S. reflexivity.
    + intros j Hj.
      rewrite provider_calls_add_other, provider_calls_add_embed by reflexivity.
      replace (S (provider_calls w) + j) with (provider_calls w + S j) by lia.
      apply Hfail. lia.
Qed.

(** X17. embed_with_retry returns the vectors of the first attempt that
    succeeds: when the provider raises on [i] calls and then answers, with
    [i] below max_retries, the result is that answer, after [i + 1]
    provider calls and a sleep of 2^attempt seconds after each failed
    attempt. *)
Theorem embed_with_retry_first_success
    (ext : Externals) (ts : list string) (vs : list vector)
    (max_retries i : nat) (w : World) :
  i < max_retries ->
  (forall j, j < i -> embed_documents ext (provider_calls w + j) ts = None) ->
  embed_documents ext (provider_calls w + i) ts = Some vs ->
  embed_with_retry ext ts max_retries w
  = (Ok vs, add_event (EvEmbed ts) (add_events (failed_attempts ts 0 i) w)) /\
  provider_calls (snd (embed_with_retry ext ts max_retries w))
  = provider_calls w + S i.
Proof.
  intros Hlt Hfail Hok. unfold embed_with_retry.
  rewrite (retry_loop_succeeds ext ts vs i 0 max_retries w Hlt Hfail Hok).
  split; [reflexivity|]. cbn [snd].
  rewrite provider_calls_add_embed, provider_calls_add_events_failed. lia.
Qed.

Lemma embed_with_retry_first_success_witness :
  embed_with_retry (Fixture.externals (Fixture.failing_first 2)) ["x"] 3
    (Fixture.world [] (Some "key") None ∅)
  = (Ok [[1 # 1]%Q],
     add_event (EvEmbed ["x"])
       (add_events (failed_attempts ["x"] 0 2)
          (Fixture.world [] (Some "key") None ∅))).
Proof.
  refine (proj1 (embed_with_retry_first_success
            (Fixture.externals (Fixture.failing_first 2)) ["x"] [[1 # 1]%Q]
            3 2 (Fixture.world [] (Some "key") None ∅) ltac:(lia) _ eq_refl)).
  intros [|[|j]] Hj; [reflexivity|reflexivity|lia].
Defined.

(** X18. When the provider raises on max_retries calls in a row,
    embed_with_retry makes exactly these calls, sleeps 2^attempt seconds
    after each of them, the last one included, and raises its RuntimeError;
    with max_retries 0 it raises without calling the provider at all. *)
Theorem embed_with_retry_gives_up
    (ext : Externals) (ts : list string) (max_retries : nat) (w : World) :
  (forall j, j < max_retries ->
             embed_documents ext (provider_calls w + j) ts = None) ->
  embed_with_retry ext ts max_retries w
  = (Raise (RuntimeError "Embedding failed after multiple retries"),
     add_events (failed_attempts ts 0 max_retries) w) /\
  provider_calls (snd (embed_with_retry ext ts max_retries w))
  = provider_calls w + max_retries.
Proof.
  intros Hfail. unfold embed_with_retry.
  rewrite (retry_loop_exhausted ext ts max_retries 0 w Hfail).
  split; [reflexivity|]. apply provider_calls_add_events_failed.
Qed.

Lemma embed_with_retry_gives_up_witness :
  embed_with_retry (Fixture.externals Fixture.steady) ["x"] 0
    (Fixture.world [] (Some "key") None ∅)
  = (Raise (RuntimeError "Embedding failed after multiple retries"),
     Fixture.world [] (Some "key") None ∅).
Proof.
  refine (proj1 (embed_with_retry_gives_up
            (Fixture.externals Fixture.steady) ["x"] 0
            (Fixture.world [] (Some "key") None ∅) _)).
  intros j Hj. lia.
Defined.

(** ** What a run changes in the world *)

Lemma add_events_app (a b : list Event) (w : World) :
  add_events (a ++ b) w = add_events b (add_events a w).
Proof. unfold add_events. apply fold_left_app. Qed.

Lemma add_events_fields (evs : list Event) (w : World) :
  listdir (add_events evs w) = listdir w /\
  json_files (add_events evs w) = json_files w /\
  api_key (add_events evs w) = api_key w /\
  cache_file (add_events evs w) = cache_file w /\
  index_dirs (add_events evs w) = index_dirs w.
Proof.
  revert w. induction evs as [|e evs IH]; intros w; [now cbn|].
  cbn. destruct (IH (add_event e w)) as (A & B & C & D & E).
  unfold add_events in *. rewrite A, B, C, D, E. now cbn.
Qed.

Lemma call_provider_only_logs (ext : Externals) :
  only_logs (call_provider ext).
Proof. intros ts w. exists [EvEmbed ts]. apply call_provider_world. Qed.

Lemma retry_loop_only_logs (ext : Externals) (attempts : list nat)
    (ts : list string) :
  forall w, exists evs, snd (retry_loop ext attempts ts w) = add_events evs w.
Proof.
  induction attempts as [|a attempts IH]; intros w; cbn.
  - now exists [].
  - unfold try_except.
    pose proof (call_provider_world ext ts w) as Hw.
    destruct (call_provider ext ts w) as [[vs|e] w1]; cbn in Hw; subst w1.
    + now exists [EvEmbed ts].
    + unfold bind, sleep, log_event.
      destruct (IH (add_event (EvSleep (2 ^ Z.of_nat a))
                              (add_event (EvEmbed ts) w))) as [evs ->].
      exists ([EvEmbed ts; EvSleep (2 ^ Z.of_nat a)] ++ evs).
      now rewrite add_events_app.
Qed.

Lemma embed_with_retry_only_logs (ext : Externals) (n : nat) :
  only_logs (fun ts => embed_with_retry ext ts n).
Proof. intros ts w. apply retry_loop_only_logs. Qed.

Section OnlyLogs.
Variable ext : Externals.
Variable enc : Encoding.
Variable embed_call : list string -> M (list vector).
Hypothesis Hcall : only_logs embed_call.

Lemma process_batch_only_logs st batch w :
  exists evs,
    snd (process_batch ext enc embed_call st batch w) = add_events evs w.
Proof.
  rewrite process_batch_eq. cbv zeta.
  destruct (batch_misses ext (cache st) batch) as [|t ts]; [now exists []|].
  set (misses := t :: ts).
  destruct (280000 <? _)%Z; unfold bind.
  - destruct (Hcall (firstn (length misses / 2) misses) w) as [e1 H1].
    destruct (embed_call (firstn _ _) w) as [[a|e] w1]; cbn in H1; subst w1;
      [|now exists e1].
    destruct (Hcall (skipn (length misses / 2) misses) (add_events e1 w))
      as [e2 H2].
    destruct (embed_call (skipn _ _) _) as [[b|e] w2]; cbn in H2; subst w2;
      exists (e1 ++ e2); now rewrite add_events_app.
  - destruct (Hcall misses w) as [e1 H1].
    destruct (embed_call misses w) as [[a|e] w1]; cbn in H1; subst w1;
      now exists e1.
Qed.

Lemma embed_loop_only_logs size c texts w :
  exists evs,
    snd (embed_loop ext enc embed_call size c texts w) = add_events evs w.
Proof.
  unfold embed_loop. generalize (mkEmbed c [] ∅). revert w.
  induction (batches size texts) as [|b bs IH]; intros w st; cbn.
  - now exists [].
  - unfold bind. destruct (process_batch_only_logs st b w) as [e1 H1].
    destruct (process_batch ext enc embed_call st b w) as [[st1|e] w1];
      cbn in H1; subst w1; [|now exists e1].
    destruct (IH (add_events e1 w) st1) as [e2 ->].
    exists (e1 ++ e2). now rewrite add_events_app.
Qed.

End OnlyLogs.

(** The exceptions the embedding branch of get_retriever can end with. *)
Lemma embed_and_index_raise_kinds ext c chunks idx w e w' :
  embed_and_index ext c chunks idx w = (Raise e, w') ->
  e = ValueError "No texts for embedding." \/
  e = ValueError "All texts filtered out." \/
  (e = ProviderError /\ exists evs, w' = add_events evs w) \/
  e = IndexError \/
  e = ValueError "inhomogeneous embedding dimensions".
Proof.
  rewrite embed_and_index_eq. cbv zeta.
  destruct (map fst (unique_pairs chunks)); [intros [= <- _]; auto|].
  destruct (map fst (filtered_pairs _ 2 _)) eqn:Et; [intros [= <- _]; auto|].
  rewrite <- Et.
  pose proof (embed_loop_only_logs ext (encoding_for_model ext small_model)
                (call_provider ext) (call_provider_only_logs ext) 100 c
                (map fst (filtered_pairs (encoding_for_model ext small_model) 2
                            (unique_pairs chunks))) w) as [evs Hevs].
  destruct (embed_loop _ _ _ _ _ _ _) as [[st|e1] w1] eqn:El; cbn in Hevs.
  - unfold build_index.
    destruct (embeddings st) as [|e0 es]; cbn; [intros [= <- _]; auto|].
    destruct (Nat.eqb _ _ && forallb _ _); cbn; [discriminate|].
    intros [= <- _]. auto 6.
  - intros [= <- <-]. apply embed_loop_raises in El. subst e1.
    right. right. left. eauto.
Qed.



(** X20. When a provider call of get_retriever raises, the run ends with
    that exception and nothing is kept: the cache file and the saved
    indexes are as before the run, also when earlier batches of the run
    had been embedded. *)
Theorem provider_failure_keeps_nothing
    (ext : Externals) (path idx : string) (reuse : bool) (k : Z)
    (limit : option Z) (w w' : World) :
  get_retriever ext path idx reuse k limit w = (Raise ProviderError, w') ->
  cache_file w' = cache_file w /\ index_dirs w' = index_dirs w.
Proof.
  rewrite get_retriever_eq.
  destruct (fst (load_documents path limit w)) as [[|d ds]|e] eqn:El;
    [discriminate| |intros [= -> _]; apply load_documents_raises in El;
                    discriminate].
  cbv zeta.
  destruct (Chunker.semantic_token_chunk_documents _ _ _ _ _); [discriminate|].
  destruct (negb _); [discriminate|].
  destruct (if reuse then _ else _); [discriminate|].
  destruct (embed_and_index _ _ _ _ _) as [[db|e] w1] eqn:Ee; [discriminate|].
  intros [= -> <-].
  apply embed_and_index_raise_kinds in Ee
    as [?|[?|[[_ [evs ->]]|[?|?]]]]; try discriminate.
  destruct (add_events_fields evs w) as (_ & _ & _ & Hc & Hi). auto.
Qed.


Lemma provider_failure_keeps_nothing_witness :
  let ext := Fixture.externals (Fixture.failing_first 1) in
  let w := Fixture.world
             [("a.json", Fixture.one_page "Alpha" "First record here.")]
             (Some "key") (Some {[ "Old text." := [3 # 1]%Q ]}) ∅ in
  cache_file (snd (get_retriever ext "data" "idx" false 5 None w))
  = cache_file w.
Proof.
  intros ext w.
  refine (proj1 (provider_failure_keeps_nothing ext "data" "idx" false 5 None
                   w _ _)).
  vm_compute. reflexivity.
Defined.

(** X21. get_retriever ends with "No chunks created." exactly when it has
    loaded at least one document and none of the documents has a
    sentence. *)
Theorem no_chunks_error_iff
    (ext : Externals) (path idx : string) (reuse : bool) (k : Z)
    (limit : option Z) (w : World) :
  fst (get_retriever ext path idx reuse k limit w)
  = Raise (ValueError "No chunks created.")
  <-> exists docs,
        fst (load_documents path limit w) = Ok docs /\ docs <> [] /\
        forall d, In d docs -> sent_tokenize ext (page_content d) = [].
Proof.
  assert (Hnil : forall docs,
    Chunker.semantic_token_chunk_documents ext 300 50 small_model docs = []
    <-> forall d, In d docs -> sent_tokenize ext (page_content d) = []).
  { intros docs. rewrite chunk_documents_concat. split.
    - intros H d Hd. apply chunk_document_nil_inv with (max_tokens := 300%Z)
        (overlap_tokens := 50%Z) (model_name := small_model).
      destruct (Chunker.chunk_document ext 300 50 small_model d) as [|c cs] eqn:E;
        [reflexivity|exfalso].
      assert (Hin : In c (concat (map (Chunker.chunk_document ext 300 50
                                         small_model) docs))).
      { apply in_concat. eexists. split; [apply in_map, Hd|].
        rewrite E. now left. }
      rewrite H in Hin. destruct Hin.
    - intros H. induction docs as [|d docs IH]; [reflexivity|]. cbn.
      rewrite (chunk_document_no_sentence ext 300 50 small_model d)
        by (apply H; now left).
      apply IH. intros d' Hd'. apply H. now right. }
  rewrite get_retriever_eq. split.
  - destruct (fst (load_documents path limit w)) as [[|d ds]|e] eqn:El.
    + discriminate.
    + cbv zeta.
      destruct (Chunker.semantic_token_chunk_documents ext 300 50 small_model
                  (d :: ds)) as [|ch chs] eqn:Ec.
      * intros _. exists (d :: ds). split; [reflexivity|].
        split; [discriminate|]. now apply Hnil.
      * destruct (negb _); [discriminate|].
        destruct (if reuse then _ else _); [discriminate|].
        destruct (embed_and_index _ _ _ _ _) as [[db|e] w'] eqn:Ee;
          [discriminate|].
        cbn. intros [= ->].
        apply embed_and_index_raise_kinds in Ee
          as [?|[?|[[? _]|[?|?]]]]; discriminate.
    + cbn. intros [= ->]. apply load_documents_raises in El. discriminate.
  - intros (docs & -> & Hne & Hs). destruct docs as [|d ds]; [congruence|].
    cbv zeta. now rewrite (proj2 (Hnil (d :: ds)) Hs).
Qed.

(** X22. get_retriever ends with "OPENAI_API_KEY is not set." exactly when
    it has loaded documents that give at least one chunk and the key is
    absent or empty; the key is looked at only then, and nothing has been
    changed. *)
Theorem api_key_error_iff
    (ext : Externals) (path idx : string) (reuse : bool) (k : Z)
    (limit : option Z) (w : World) :
  (fst (get_retriever ext path idx reuse k limit w)
   = Raise (ValueError "OPENAI_API_KEY is not set.")
   <-> exists docs,
         fst (load_documents path limit w) = Ok docs /\
         Chunker.semantic_token_chunk_documents ext 300 50 small_model docs
         <> [] /\
         truthy (default EmptyString (api_key w)) = false) /\
  (truthy (default EmptyString (api_key w)) = false ->
   snd (get_retriever ext path idx reuse k limit w) = w).
Proof.
  rewrite get_retriever_eq. split; [split|].
  - destruct (fst (load_documents path limit w)) as [[|d ds]|e] eqn:El.
    + discriminate.
    + cbv zeta.
      destruct (Chunker.semantic_token_chunk_documents ext 300 50 small_model
                  (d :: ds)) as [|ch chs] eqn:Ec; [discriminate|].
      destruct (truthy _) eqn:Ek; cbn [negb].
      * destruct (if reuse then _ else _); [discriminate|].
        destruct (embed_and_index _ _ _ _ _) as [[db|e] w'] eqn:Ee;
          [discriminate|].
        cbn. intros [= ->].
        apply embed_and_index_raise_kinds in Ee
          as [?|[?|[[? _]|[?|?]]]]; discriminate.
      * intros _. exists (d :: ds). rewrite Ec. repeat split; discriminate.
    + cbn. intros [= ->]. apply load_documents_raises in El. discriminate.
  - intros (docs & -> & Hne & Hk). destruct docs as [|d ds].
    + exfalso. apply Hne. reflexivity.
    + cbv zeta.
      destruct (Chunker.semantic_token_chunk_documents _ _ _ _ _);
        [congruence|].
      now rewrite Hk.
  - intros Hk.
    destruct (fst (load_documents path limit w)) as [[|d ds]|e];
      try reflexivity.
    cbv zeta. destruct (Chunker.semantic_token_chunk_documents _ _ _ _ _);
      [reflexivity|].
    now rewrite Hk.
Qed.

Lemma api_key_error_iff_witness :
  let ext := Fixture.externals Fixture.steady in
  let w := Fixture.world
             [("a.json", Fixture.one_page "Alpha" "First record here.")]
             None None ∅ in
  snd (get_retriever ext "data" "idx" true 5 None w) = w.
Proof.
  intros ext w.
  exact (proj2 (api_key_error_iff ext "data" "idx" true 5 None w) eq_refl).
Defined.

(** ** build_faiss_index *)

(** X23. build_faiss_index has no guard for an empty text list: when no
    text passes its filter of more than 5 tokens, in particular for no
    documents at all, it ends with an IndexError, having called the
    provider and written nothing. *)
Theorem build_faiss_index_nothing_to_embed
    (ext : Externals) (docs : list Document) (batch_size : Z) (w : World) :
  batch_size <> 0%Z ->
  filtered_pairs (encoding_for_model ext large_model) 5 (unique_pairs docs)
  = [] ->
  build_faiss_index ext docs batch_size w = (Raise IndexError, w).
Proof.
  intros Hb Hf. unfold build_faiss_index. cbv zeta.
  unfold bind at 1, load_cache. rewrite Hf. cbn [map].
  destruct (Z.eqb_spec batch_size 0) as [?|_]; [congruence|].
  unfold embed_loop, batches, range_step. cbn [length].
  replace ((0 + Z.to_nat batch_size - 1) / Z.to_nat batch_size) with 0.
  - reflexivity.
  - destruct (Z.to_nat batch_size) as [|n]; [reflexivity|].
    symmetry. apply Nat.div_small. lia.
Qed.

Lemma build_faiss_index_nothing_to_embed_witness :
  build_faiss_index (Fixture.externals Fixture.steady)
    [Fixture.doc "Tiny." "a.json"] 50 (Fixture.world [] (Some "key") None ∅)
  = (Raise IndexError, Fixture.world [] (Some "key") None ∅).
Proof.
  apply build_faiss_index_nothing_to_embed; [discriminate|reflexivity].
Defined.

(** X24. build_faiss_index returns its store without saving it: whatever
    the outcome, the saved indexes, the record files and the API key are
    as before. *)
Theorem build_faiss_index_never_saves
    (ext : Externals) (docs : list Document) (batch_size : Z) (w : World) :
  index_dirs (snd (build_faiss_index ext docs batch_size w)) = index_dirs w /\
  same_inputs w (snd (build_faiss_index ext docs batch_size w)).
Proof.
  enough (H : exists w2,
            snd (build_faiss_index ext docs batch_size w) = w2 /\
            index_dirs w2 = index_dirs w /\ same_inputs w w2)
    by (destruct H as (w2 & -> & H1 & H2); auto).
  unfold build_faiss_index. cbv zeta. unfold bind at 1, load_cache.
  set (pairs := filtered_pairs _ 5 _).
  unfold bind at 1.
  destruct (batch_size =? 0)%Z.
  - cbn. eexists. split; [reflexivity|].
    split; [reflexivity|apply same_inputs_refl].
  - destruct (embed_loop_only_logs ext (encoding_for_model ext large_model)
                (fun ts => embed_with_retry ext ts 3)
                (embed_with_retry_only_logs ext 3)
                (Z.to_nat batch_size) (default ∅ (cache_file w))
                (map fst pairs) w) as [evs Hevs].
    destruct (add_events_fields evs w) as (A & B & C & _ & E).
    destruct (embed_loop _ _ _ _ _ _ _) as [[st|e] w1]; cbn in Hevs; subst w1.
    + unfold bind at 1, persist_cache.
      destruct (bool_decide _); cbn [ret];
        match goal with
        | |- context [build_index ?e ?p ?w0] =>
            pose proof (build_index_world e p w0) as Hw;
            destruct (build_index e p w0) as [r w3]; cbn in Hw; subst w3
        end; cbn; (eexists; split; [reflexivity|]);
        cbn; (split; [exact E|now repeat split]).
    + cbn. eexists. split; [reflexivity|].
      split; [exact E|now repeat split].
Qed.

(** ** enrich_documents_with_metadata *)

Lemma get_default_metadata_of (data : RecordFile) (filename tk sk : string) :
  In (tk, sk) field_table ->
  get_default (metadata_of data filename) tk
  = get_default (default ∅ (csv_metadata data)) sk.
Proof.
  intros H. unfold get_default at 1.
  now rewrite (metadata_of_field data filename tk sk H).
Qed.

Lemma enrich_document_of (fd : string * RecordFile) :
  enrich_document (document_of fd) = record_block (snd fd).
Proof.
  unfold enrich_document, record_block, document_of.
  cbn [metadata page_content]. cbv zeta.
  rewrite (get_default_metadata_of _ _ "사업명" "사업명"),
    (get_default_metadata_of _ _ "공고번호" "공고 번호"),
    (get_default_metadata_of _ _ "공고차수" "공고 차수"),
    (get_default_metadata_of _ _ "사업금액" "사업 금액"),
    (get_default_metadata_of _ _ "발주기관" "발주 기관"),
    (get_default_metadata_of _ _ "입찰참여시작일" "입찰 참여 시작일"),
    (get_default_metadata_of _ _ "입찰참여마감일" "입찰 참여 마감일"),
    (get_default_metadata_of _ _ "사업요약" "사업 요약"),
    (get_default_metadata_of _ _ "파일명" "파일명")
    by (unfold field_table; cbn; auto 20).
  reflexivity.
Qed.

(** X25. The context made from loaded documents shows, for each record
    file with a non-blank page and in file order, the nine fields of the
    record, read under the record's own keys and empty when absent,
    followed by its text; the file name kept under "source" is not
    shown. *)
Theorem enriched_context_of_loaded_documents
    (w w' : World) (folder : string) (limit : option Z)
    (docs : list Document) :
  load_documents folder limit w = (Ok docs, w') ->
  exists names,
    listdir w folder = Some names /\
    enrich_documents_with_metadata docs
    = str_join (newline ++ newline)%string
        (map (fun fd => record_block (snd fd))
             (List.filter has_content
                (read_records w folder (select_files names limit)))).
Proof.
  intros H. apply load_documents_ok in H as (names & Hdir & ->).
  exists names. split; [exact Hdir|].
  unfold enrich_documents_with_metadata. rewrite map_map.
  rewrite (map_ext _ (fun fd => record_block (snd fd)) enrich_document_of).
  reflexivity.
Qed.

Lemma enriched_context_of_loaded_documents_witness :
  let w := Fixture.world
             [("a.json", Fixture.one_page "Alpha" "First record here.")]
             (Some "key") None ∅ in
  exists names,
    listdir w "data" = Some names /\
    enrich_documents_with_metadata
      (match fst (load_documents "data" None w) with
       | Ok docs => docs
       | Raise _ => []
       end)
    = str_join (newline ++ newline)%string
        (map (fun fd => record_block (snd fd))
             (List.filter has_content
                (read_records w "data" (select_files names None)))).
Proof.
  intros w.
  refine (enriched_context_of_loaded_documents w w "data" None _ _).
  vm_compute. reflexivity.
Defined.
